(** * chord_cutter: cutting a spinal-cord mask into per-vertebra segments

    A shallow embedding of [chord_cutter/chord_cutter.py] (class
    [ChordCutter] and the loaders it calls) together with the properties of
    [cut_chord], [add_vertebrae] and [add_vertebrae_group].

    Conventions of the embedding.
    - A numpy array of rank three is a shape and an indexing function; the
      function is only ever read at indices inside the shape.
    - Voxel counts are numpy integers and are modelled by [Z]; the sums of a
      mask never leave the 64-bit range for an array that fits in memory, so
      no wrap-around is written.
    - The threshold [T] and the quotient [slice/total] are Python floats and
      are modelled by exact rationals ([Q]).
    - A Python exception is the left summand of [result].
    - The file system and the DICOM structure set are external; they are the
      fields of [world]. *)

From Stdlib Require Import QArith Ascii.
From stdpp Require Import gmap strings list fin_maps pretty.

Local Open Scope Z_scope.

(** ** Exceptions and the error monad *)

Inductive exception : Type :=
  | ValueError (msg : string)
  | TypeError (msg : string)
  | RuntimeError (msg : string).

Definition result (A : Type) : Type := exception + A.

Definition raise {A : Type} (e : exception) : result A := inl e.
Definition ret {A : Type} (a : A) : result A := inr a.
Definition bind {A B : Type} (m : result A) (k : A -> result B) : result B :=
  match m with
  | inl e => inl e
  | inr a => k a
  end.

Notation "x <-- m ;; k" := (bind m (fun x => k))
  (at level 100, m at next level, right associativity).

(** [for v in l: body] with a loop state and an exception that leaves the
    loop. *)
Fixpoint for_each {A S : Type} (body : A -> S -> result S) (l : list A) (s : S)
  : result S :=
  match l with
  | [] => ret s
  | a :: rest => s' <-- body a s ;; for_each body rest s'
  end.

(** ** numpy arrays of rank three *)

Record ndarray (A : Type) : Type := NdArray {
  shape : nat * nat * nat;
  item : nat -> nat -> nat -> A
}.
Arguments NdArray {A} _ _.
Arguments shape {A} _.
Arguments item {A} _ _ _ _.

Definition dim0 {A} (a : ndarray A) : nat := (shape a).1.1.
Definition dim1 {A} (a : ndarray A) : nat := (shape a).1.2.
Definition dim2 {A} (a : ndarray A) : nat := (shape a).2.

(** [sum_upto n f] is [f 0 + ... + f (n-1)]. *)
Fixpoint sum_upto (n : nat) (f : nat -> Z) : Z :=
  match n with
  | O => 0
  | S k => sum_upto k f + f k
  end.

(** [a.sum()] *)
Definition np_sum (a : ndarray Z) : Z :=
  sum_upto (dim0 a) (fun i => sum_upto (dim1 a) (fun j =>
    sum_upto (dim2 a) (fun k => item a i j k))).

(** The sum of the axial slice [a[:,:,k]]. *)
Definition slice_count (a : ndarray Z) (k : nat) : Z :=
  sum_upto (dim0 a) (fun i => sum_upto (dim1 a) (fun j => item a i j k)).

(** [a.sum((0,1))]: one entry per index of the last axis. *)
Definition np_sum01 (a : ndarray Z) : list Z :=
  map (slice_count a) (seq 0 (dim2 a)).

(** [np.swapaxes(a, 0, 2)] and [np.swapaxes(a, 0, 1)] *)
Definition swapaxes02 {A} (a : ndarray A) : ndarray A :=
  NdArray (dim2 a, dim1 a, dim0 a) (fun i j k => item a k j i).
Definition swapaxes01 {A} (a : ndarray A) : ndarray A :=
  NdArray (dim1 a, dim0 a, dim2 a) (fun i j k => item a j i k).

(** [np.flip(a, 0)] *)
Definition flip0 {A} (a : ndarray A) : ndarray A :=
  NdArray (shape a) (fun i j k => item a (dim0 a - 1 - i)%nat j k).

(** [np.zeros(shape)] (a float array; only 0.0 and 1.0 are ever stored in
    it by [cut_chord], so its entries are integers here). *)
Definition np_zeros (sh : nat * nat * nat) : ndarray Z :=
  NdArray sh (fun _ _ _ => 0).

Definition bool_to_Z (b : bool) : Z := if b then 1 else 0.

(** [dst[:,:,lo:hi] = src[:,:,lo:hi]] for a boolean [src] of the shape of
    [dst]: the half-open slice [lo:hi] of the last axis is overwritten. *)
Definition assign_slice2 (dst : ndarray Z) (lo hi : nat) (src : ndarray bool)
  : ndarray Z :=
  NdArray (shape dst)
    (fun i j k => if (lo <=? k)%nat && (k <? hi)%nat
                  then bool_to_Z (item src i j k)
                  else item dst i j k).

(** [np.ma.getmask(np.ma.masked_greater(a, 0))]: the boolean array [a > 0]. *)
Definition masked_greater0 (a : ndarray Z) : ndarray bool :=
  NdArray (shape a) (fun i j k => 0 <? item a i j k).

(** [x > y] on floats, read on rationals. *)
Definition Qgtb (x y : Q) : bool :=
  match (x ?= y)%Q with
  | Gt => true
  | _ => false
  end.

(** [(slice/total) > T], elementwise. *)
Definition above_threshold (slice : list Z) (total : Z) (T : Q) : list bool :=
  map (fun s => Qgtb (inject_Z s / inject_Z total)%Q T) slice.

(** [np.where(cond)[0]]: the indices of the true entries, ascending. *)
Fixpoint where_from (i : nat) (cond : list bool) : list nat :=
  match cond with
  | [] => []
  | b :: rest => if b then i :: where_from (S i) rest else where_from (S i) rest
  end.
Definition np_where (cond : list bool) : list nat := where_from 0 cond.

Definition zero_size : string :=
  "zero-size array to reduction operation which has no identity".

(** [arr.min()] and [arr.max()]: numpy raises [ValueError] on an empty
    array. *)
Definition np_min (arr : list nat) : result nat :=
  match arr with
  | [] => raise (ValueError zero_size)
  | a :: rest => ret (foldl Nat.min a rest)
  end.
Definition np_max (arr : list nat) : result nat :=
  match arr with
  | [] => raise (ValueError zero_size)
  | a :: rest => ret (foldl Nat.max a rest)
  end.

(** ** Paths and the external world *)

(** [s.endswith("/")] *)
Fixpoint last_is_sep (s : string) : bool :=
  match s with
  | EmptyString => false
  | String c EmptyString => bool_decide (c = "/"%char)
  | String _ rest => last_is_sep rest
  end.

(** [os.path.join(a, b)] (POSIX). *)
Definition join (a b : string) : string :=
  if String.prefix "/" b then b
  else if bool_decide (a = "") || last_is_sep a then a +:+ b
  else a +:+ "/" +:+ b.

(** What the collaborators outside the repository hold:
    - [nifti_images]: for each readable image file, the array that
      [sitk.GetArrayFromImage(sitk.ReadImage(path))] returns (axes z, y, x);
    - [rtstruct_rois]: for each readable RTStruct file, its ROI masks by
      name, as [get_roi_mask_by_name] returns them. *)
Record world : Type := World {
  nifti_images : gmap string (ndarray Z);
  rtstruct_rois : gmap string (gmap string (ndarray bool))
}.

(** [load_nifti(path, flip)]; [sitk.ReadImage] raises [RuntimeError] for a
    file it cannot read. *)
Definition load_nifti (w : world) (path : string) (flip : bool)
  : result (ndarray Z) :=
  match nifti_images w !! path with
  | None => raise (RuntimeError ("cannot read image " +:+ path))
  | Some img_ar =>
      let img_ar := swapaxes02 img_ar in
      let img_ar := swapaxes01 img_ar in
      let img_ar := if flip then flip0 img_ar else img_ar in
      ret img_ar
  end.

(** [load_rs(dcm_path, rs_path, roi_name)]; [rs_path] is [None] when the
    input directory holds no file whose name starts with RS. *)
Definition load_rs (w : world) (dcm_path : string) (rs_path : option string)
    (roi_name : string) : result (ndarray bool) :=
  match rs_path with
  | None => raise (TypeError "rt_struct_path is None")
  | Some p =>
      match rtstruct_rois w !! p with
      | None => raise (RuntimeError ("cannot read structure set " +:+ p))
      | Some rois =>
          match rois !! roi_name with
          | None => raise (RuntimeError ("no ROI named " +:+ roi_name))
          | Some mask => ret mask
          end
      end
  end.

(** ** The class [ChordCutter] *)

Record ChordCutter : Type := mkChordCutter {
  _RS_path : option string;
  _vertebrae_RS_path : option string;
  _dcm_input_path : string;
  _chord_name : string;
  _ct_nifti_path : option string;
  _seg_path : option string;
  _vertebrae : list string
}.

Definition set_vertebrae (self : ChordCutter) (l : list string) : ChordCutter :=
  mkChordCutter (_RS_path self) (_vertebrae_RS_path self) (_dcm_input_path self)
    (_chord_name self) (_ct_nifti_path self) (_seg_path self) l.

(** property [vertebrae] *)
Definition vertebrae (self : ChordCutter) : list string := _vertebrae self.

(** [add_vertebrae(vert)] *)
Definition add_vertebrae (self : ChordCutter) (vert : string) : ChordCutter :=
  if bool_decide (vert ∈ _vertebrae self) then self
  else set_vertebrae self (_vertebrae self ++ [vert]).

(** [remove_all_vertebrae()] *)
Definition remove_all_vertebrae (self : ChordCutter) : ChordCutter :=
  set_vertebrae self [].

Definition cervical : list string :=
  ["vertebrae_C1"; "vertebrae_C2"; "vertebrae_C3"; "vertebrae_C4";
   "vertebrae_C5"; "vertebrae_C6"; "vertebrae_C7"].
Definition thorax : list string :=
  ["vertebrae_T1"; "vertebrae_T2"; "vertebrae_T3"; "vertebrae_T4";
   "vertebrae_T5"; "vertebrae_T6"; "vertebrae_T7"; "vertebrae_T8";
   "vertebrae_T9"; "vertebrae_T10"; "vertebrae_T11"; "vertebrae_T12"].
Definition lumbar : list string :=
  ["vertebrae_L1"; "vertebrae_L2"; "vertebrae_L3"; "vertebrae_L4";
   "vertebrae_L5"].

(** [add_vertebrae_group(vgroup)] *)
Definition add_vertebrae_group (self : ChordCutter) (vgroup : string)
  : result ChordCutter :=
  if bool_decide (vgroup = "cervical") then
    ret (foldl add_vertebrae self cervical)
  else if bool_decide (vgroup = "thorax") then
    ret (foldl add_vertebrae self thorax)
  else if bool_decide (vgroup = "lumbar") then
    ret (foldl add_vertebrae self lumbar)
  else raise (ValueError "vertebrae groups: cervical, thorax, lumbar").

(** *** [cut_chord] *)

(** The local variables that the loop of [cut_chord] updates, and the lines
    printed so far. The two dictionaries are only ever read by key, so they
    are finite maps. *)
Record locals : Type := Locals {
  values : gmap string (nat * nat);
  all_seg_chord_masks : gmap string (ndarray Z);
  stdout : list string
}.

Definition print (st : locals) (line : string) : locals :=
  Locals (values st) (all_seg_chord_masks st) (stdout st ++ [line]).
Definition set_value (st : locals) (v : string) (r : nat * nat) : locals :=
  Locals (<[v := r]> (values st)) (all_seg_chord_masks st) (stdout st).
Definition set_mask (st : locals) (v : string) (m : ndarray Z) : locals :=
  Locals (values st) (<[v := m]> (all_seg_chord_masks st)) (stdout st).

Definition tab : string := String (ascii_of_nat 9) EmptyString.

(** [join(self._seg_path, name)]: [_seg_path] is [None] until it is set. *)
Definition seg_file (self : ChordCutter) (name : string) : result string :=
  match _seg_path self with
  | None => raise (TypeError "expected str, bytes or os.PathLike object, not NoneType")
  | Some p => ret (join p name)
  end.

(** The body of [for v in self._vertebrae]. [chord] is bound exactly when
    [save_as_RS] is true, so [if save_as_RS] is the match on it. *)
Definition cut_chord_body (self : ChordCutter) (w : world) (T : Q)
    (chord : option (ndarray bool)) (verbose : Z) (v : string) (st : locals)
  : result locals :=
  full_path <-- seg_file self (v +:+ ".nii.gz") ;;
  let st := if 1 <? verbose then print st full_path else st in
  vert <-- load_nifti w full_path true ;;
  let slice := np_sum01 vert in
  let total := np_sum vert in
  if total <=? 0 then
    ret st
  else
    let arr_th := np_where (above_threshold slice total T) in
    minv <-- np_min arr_th ;;
    maxv <-- np_max arr_th ;;
    let st := set_value st v (minv, maxv) in
    let st :=
      if 1 <? verbose
      then print st (tab +:+ v +:+ ", Min z: " +:+ pretty minv +:+ "; Max z: "
                       +:+ pretty maxv)
      else st in
    match chord with
    | None => ret st
    | Some chord =>
        let chord_t := np_zeros (shape chord) in
        let chord_t := assign_slice2 chord_t minv maxv chord in
        if np_sum chord_t <? 1 then
          ret (if 0 <? verbose
               then print st (v +:+ ": no overlap between chord and vertebrae")
               else st)
        else
          ret (set_mask st v chord_t)
    end.

(** What a call of [cut_chord] leaves behind: the dictionary it returns, the
    lines it printed, and, with [save_as_RS], the structure set it saved (the
    path of the file and the ROIs added to it, in order). *)
Record outcome : Type := Outcome {
  returned : gmap string (nat * nat);
  printed : list string;
  saved : option (string * list (string * ndarray bool))
}.

(** [cut_chord(T, save_as_RS, verbose)]. The structure-set builder of
    rt_utils is taken to accept every ROI it is given. *)
Definition cut_chord (self : ChordCutter) (w : world) (T : Q)
    (save_as_RS : bool) (verbose : Z) : result outcome :=
  chord <--
    (if save_as_RS then
       match _vertebrae_RS_path self with
       | None => raise (ValueError "Must define vertebrae_RS_path")
       | Some _ =>
           c <-- load_rs w (_dcm_input_path self) (_RS_path self) (_chord_name self) ;;
           ret (Some c)
       end
     else ret None) ;;
  st <-- for_each (cut_chord_body self w T chord verbose) (_vertebrae self)
           (Locals ∅ ∅ []) ;;
  if save_as_RS then
    let rois :=
      omap (fun v => (fun m => (v, masked_greater0 m)) <$> all_seg_chord_masks st !! v)
           (vertebrae self) in
    match _vertebrae_RS_path self with
    | None => raise (TypeError "expected str, bytes or os.PathLike object, not NoneType")
    | Some rs_dir =>
        ret (Outcome (values st) (stdout st) (Some (join rs_dir "vertebrae.dcm", rois)))
    end
  else ret (Outcome (values st) (stdout st) None).

(** ** What one vertebra contributes

    The three definitions below restate, without the loop state, what the
    body of the loop computes for one vertebra; [cut_chord_body_spec] proves
    that the body does exactly this. *)

(** The index set [arr_th] of a loaded mask. *)
Definition arr_th_of (vert : ndarray Z) (T : Q) : list nat :=
  np_where (above_threshold (np_sum01 vert) (np_sum vert) T).

(** The entry written to [values] for a loaded mask, if any. *)
Definition range_of (vert : ndarray Z) (T : Q) : result (option (nat * nat)) :=
  if np_sum vert <=? 0 then ret None
  else
    minv <-- np_min (arr_th_of vert T) ;;
    maxv <-- np_max (arr_th_of vert T) ;;
    ret (Some (minv, maxv)).

(** The array [vert] loaded for the identifier [v]. *)
Definition vertebra_mask (self : ChordCutter) (w : world) (v : string)
  : result (ndarray Z) :=
  full_path <-- seg_file self (v +:+ ".nii.gz") ;;
  load_nifti w full_path true.

Definition vertebra_range (self : ChordCutter) (w : world) (T : Q) (v : string)
  : result (option (nat * nat)) :=
  vert <-- vertebra_mask self w v ;;
  range_of vert T.

(** [chord_t] for the range [(minv, maxv)]. *)
Definition chord_t_of (chord : ndarray bool) (minv maxv : nat) : ndarray Z :=
  assign_slice2 (np_zeros (shape chord)) minv maxv chord.

(** The entry written to [all_seg_chord_masks], if any. *)
Definition chord_segment (chord : option (ndarray bool)) (r : option (nat * nat))
  : option (ndarray Z) :=
  match chord, r with
  | Some c, Some (minv, maxv) =>
      if np_sum (chord_t_of c minv maxv) <? 1 then None
      else Some (chord_t_of c minv maxv)
  | _, _ => None
  end.

(** The value bound to [chord] before the loop. *)
Definition chord_for (self : ChordCutter) (w : world) (save_as_RS : bool)
  : result (option (ndarray bool)) :=
  if save_as_RS then
    match _vertebrae_RS_path self with
    | None => raise (ValueError "Must define vertebrae_RS_path")
    | Some _ =>
        c <-- load_rs w (_dcm_input_path self) (_RS_path self) (_chord_name self) ;;
        ret (Some c)
    end
  else ret None.

(** [d[k] = x] when there is an [x], nothing otherwise. *)
Definition store {A : Type} (k : string) (x : option A) (d : gmap string A)
  : gmap string A :=
  match x with
  | Some a => <[k := a]> d
  | None => d
  end.

(** The names of the ROIs of a saved structure set. *)
Definition roi_names (out : outcome) : list string :=
  match saved out with
  | Some (_, rois) => rois.*1
  | None => []
  end.

(** A slice [k] of [vert] qualifies under [T]. *)
Definition qualifies (vert : ndarray Z) (T : Q) (k : nat) : Prop :=
  (k < dim2 vert)%nat /\
  (T < inject_Z (slice_count vert k) / inject_Z (np_sum vert))%Q.

(** Every voxel of every stored image is a count, not a negative number. *)
Definition nonneg_images (w : world) : Prop :=
  forall path img, nifti_images w !! path = Some img ->
    forall i j k, 0 <= item img i j k.

(** ** The rest of the class: constructor and setters

    The setters test their argument against the file system. [disk] holds
    what they can see of it: the directories, each with the names that
    [listdir] returns for it (in that order), and the image files.
    [isdir] and [listdir] read the same entry. *)

Record disk : Type := Disk {
  listings : gmap string (list string);
  image_files : gmap string (ndarray Z)
}.

(** [os.path.isdir(path)] *)
Definition isdir (d : disk) (path : string) : bool :=
  bool_decide (is_Some (listings d !! path)).

(** [os.path.exists(path)] *)
Definition path_exists (d : disk) (path : string) : bool :=
  isdir d path || bool_decide (is_Some (image_files d !! path)).

(** The Python values that reach a type or truth test in this module. *)
Inductive pyobj : Type :=
  | PyNone
  | PyBool (b : bool)
  | PyInt (n : Z)
  | PyStr (s : string).

(** The truth value of an object, as [if obj:] takes it. *)
Definition truthy (o : pyobj) : bool :=
  match o with
  | PyNone => false
  | PyBool b => b
  | PyInt n => negb (n =? 0)
  | PyStr s => negb (bool_decide (s = ""))
  end.

Definition with_RS_path (self : ChordCutter) (p : option string) : ChordCutter :=
  mkChordCutter p (_vertebrae_RS_path self) (_dcm_input_path self)
    (_chord_name self) (_ct_nifti_path self) (_seg_path self) (_vertebrae self).
Definition with_vertebrae_RS_path (self : ChordCutter) (p : option string)
  : ChordCutter :=
  mkChordCutter (_RS_path self) p (_dcm_input_path self)
    (_chord_name self) (_ct_nifti_path self) (_seg_path self) (_vertebrae self).
Definition with_dcm_input_path (self : ChordCutter) (p : string) : ChordCutter :=
  mkChordCutter (_RS_path self) (_vertebrae_RS_path self) p
    (_chord_name self) (_ct_nifti_path self) (_seg_path self) (_vertebrae self).
Definition with_chord_name (self : ChordCutter) (name : string) : ChordCutter :=
  mkChordCutter (_RS_path self) (_vertebrae_RS_path self) (_dcm_input_path self)
    name (_ct_nifti_path self) (_seg_path self) (_vertebrae self).
Definition with_ct_nifti_path (self : ChordCutter) (p : option string)
  : ChordCutter :=
  mkChordCutter (_RS_path self) (_vertebrae_RS_path self) (_dcm_input_path self)
    (_chord_name self) p (_seg_path self) (_vertebrae self).
Definition with_seg_path (self : ChordCutter) (p : option string) : ChordCutter :=
  mkChordCutter (_RS_path self) (_vertebrae_RS_path self) (_dcm_input_path self)
    (_chord_name self) (_ct_nifti_path self) p (_vertebrae self).

(** One turn of [for f in listdir(dcm_path)] in the setter below. *)
Definition note_RS_file (dcm_path : string) (self : ChordCutter) (f : string)
  : ChordCutter :=
  if String.prefix "RS" f then with_RS_path self (Some (join dcm_path f))
  else self.

(** setter of [dcm_input_path] *)
Definition set_dcm_input_path (d : disk) (self : ChordCutter) (dcm_path : string)
  : result ChordCutter :=
  match listings d !! dcm_path with
  | Some files =>
      let self := with_dcm_input_path self dcm_path in
      ret (foldl (note_RS_file dcm_path) self files)
  | None => raise (ValueError "invalid dcm input directory")
  end.

(** setter of [chord_name] *)
Definition set_chord_name (self : ChordCutter) (name : pyobj) : result ChordCutter :=
  match name with
  | PyStr s => ret (with_chord_name self s)
  | _ => raise (TypeError "Chord name must be a string")
  end.

(** setter of [seg_path] *)
Definition set_seg_path (d : disk) (self : ChordCutter) (seg_path : string)
  : result ChordCutter :=
  if isdir d seg_path then ret (with_seg_path self (Some seg_path))
  else raise (ValueError "invalid output directory").

(** setter of [vertebrae_RS_path] *)
Definition set_vertebrae_RS_path (d : disk) (self : ChordCutter) (path : string)
  : result ChordCutter :=
  if isdir d path then ret (with_vertebrae_RS_path self (Some path))
  else raise (ValueError "Must have a valid path for vertebrae RS").

(** [s.endswith(suffix)] *)
Fixpoint endswith (s suffix : string) : bool :=
  bool_decide (s = suffix) ||
  match s with
  | EmptyString => false
  | String _ rest => endswith rest suffix
  end.


(** [ChordCutter(dcm_input_path, ct_nifti_path, chord_name, seg_path)]. The
    attributes that [__init__] has not bound yet when it calls the setter of
    [dcm_input_path] are placeholders; each is bound before the constructor
    returns. *)
Definition init (d : disk) (dcm_input_path : string)
    (ct_nifti_path : option string) (chord_name : pyobj)
    (seg_path : option string) : result ChordCutter :=
  let self := mkChordCutter None None "" "" None None [] in
  self <-- set_dcm_input_path d self dcm_input_path ;;
  self <-- (if truthy chord_name then set_chord_name self chord_name
            else ret (with_chord_name self "Moelle")) ;;
  let self := with_ct_nifti_path self ct_nifti_path in
  let self := with_seg_path self seg_path in
  ret (set_vertebrae self []).

(** ** The functions of the module *)

(** The exceptions of the operating system that the module functions raise,
    beside the built-in ones of [exception]. *)
Inductive os_error : Type :=
  | FileNotFoundError (path : string)
  | FileExistsError (msg : string).

Definition io (A : Type) : Type := (exception + os_error) + A.

(** [f.split('.')[0]] *)
Fixpoint stem (f : string) : string :=
  match f with
  | EmptyString => EmptyString
  | String c rest => if bool_decide (c = "."%char) then EmptyString
                     else String c (stem rest)
  end.

(** What the module prints, by message. *)
Inductive notice : Type :=
  | AllSegmentationsFound
  | Segmenting (vertebrae_list : list string)
  | NiftiFileExists
  | MoreThanOneImage.

(** A call of [totalsegmentator(input, output, output_type="nifti", fast,
    roi_subset)]. *)
Record totalsegmentator_call : Type := TotalSegmentator {
  ts_input : string;
  ts_output : string;
  ts_fast : bool;
  ts_roi_subset : list string
}.

(** [segment_vertebrae(dcm_input_path, out_path, vertebrae_list, fast)]: the
    value returned, the message printed and the call of TotalSegmentator, if
    one was made. *)
Definition segment_vertebrae (d : disk) (dcm_input_path out_path : string)
    (vertebrae_list : list string) (fast : bool)
  : io (bool * notice * option totalsegmentator_call) :=
  match listings d !! out_path with
  | None => inl (inr (FileNotFoundError out_path))
  | Some files =>
      let seg_files := map stem files in
      if forallb (fun v => bool_decide (v ∈ seg_files)) vertebrae_list then
        inr (false, AllSegmentationsFound, None)
      else
        inr (true, Segmenting vertebrae_list,
             Some (TotalSegmentator dcm_input_path out_path fast vertebrae_list))
  end.

(** [create_niftii_from_dcm(nifti_path, input_dcm_path)]. [convert] stands
    for [dicom2nifti.convert_directory]: the files it writes into the
    temporary directory for an input directory, as [listdir] lists them.
    [rename] is taken to succeed. The three branches on [len(all_img_name)]
    (more than one, none, one) are the three shapes of the list. The result
    is the value returned, the messages printed and the disk afterwards. *)
Definition create_niftii_from_dcm (d : disk)
    (convert : string -> list (string * ndarray Z))
    (nifti_path input_dcm_path : string) : io (pyobj * list notice * disk) :=
  if path_exists d nifti_path then
    inr (PyBool false, [NiftiFileExists], d)
  else
    let all_img :=
      filter (fun f => endswith f.1 ".nii.gz" = true) (convert input_dcm_path) in
    match all_img with
    | _ :: _ :: _ =>
        inr (PyInt 1, [MoreThanOneImage], d)
    | [] =>
        inl (inr (FileExistsError "No nifti image created from dicom"))
    | [(_, img)] =>
        inr (PyInt 1, [],
             Disk (listings d) (<[nifti_path := img]> (image_files d)))
    end.

(** The converted files that [create_niftii_from_dcm] takes for images. *)
Definition all_img_of (convert : string -> list (string * ndarray Z))
    (input_dcm_path : string) : list (string * ndarray Z) :=
  filter (fun f => endswith f.1 ".nii.gz" = true) (convert input_dcm_path).

(** [get_ct_nifti()]: the array returned and the disk afterwards. *)
Definition get_ct_nifti (d : disk) (convert : string -> list (string * ndarray Z))
    (self : ChordCutter) : io (ndarray Z * disk) :=
  match _ct_nifti_path self with
  | None => inl (inl (ValueError "Must first set ct_nifti_path"))
  | Some ct_nifti_path =>
      match create_niftii_from_dcm d convert ct_nifti_path (_dcm_input_path self) with
      | inl e => inl e
      | inr (_, _, d') =>
          match load_nifti (World (image_files d') ∅) ct_nifti_path false with
          | inl e => inl (inl e)
          | inr img_ar => inr (img_ar, d')
          end
      end
  end.

(** The ROI that [cut_chord] adds to the structure set for the identifier
    [v], if any. *)
Definition roi_of (self : ChordCutter) (w : world) (T : Q)
    (chord : option (ndarray bool)) (v : string)
  : option (string * ndarray bool) :=
  match vertebra_range self w T v with
  | inr r => (fun m => (v, masked_greater0 m)) <$> chord_segment chord r
  | inl _ => None
  end.

(** The members of a group that [add_vertebrae_group] knows. *)
Definition group_members (vgroup : string) : option (list string) :=
  if bool_decide (vgroup = "cervical") then Some cervical
  else if bool_decide (vgroup = "thorax") then Some thorax
  else if bool_decide (vgroup = "lumbar") then Some lumbar
  else None.

(** ** A small patient

    One voxel column of four axial slices. The stored images have the axes
    (z, y, x) of SimpleITK; the chord mask has the axes (x, y, z). *)

Definition column (counts : list Z) : ndarray Z :=
  NdArray (length counts, 1%nat, 1%nat) (fun z _ _ => nth z counts 0).

Definition chord_column (present : list bool) : ndarray bool :=
  NdArray (1%nat, 1%nat, length present) (fun _ _ z => nth z present false).

Definition ex_chord : ndarray bool := chord_column [true; true; true; true].

(** What [load_nifti(path, flip=True)] makes of a stored image. *)
Definition loaded (img_ar : ndarray Z) : ndarray Z :=
  flip0 (swapaxes01 (swapaxes02 img_ar)).

(** T4 thins out towards slice 0, T5 has one voxel in each of the slices 1
    to 3, T6 was not segmented, T7 is dense at both ends and thin in between,
    L5 sits in slice 2 alone; there is no file for T8. *)
Definition ex_world_with (chord : ndarray bool) : world :=
  World
    (<["/seg/vertebrae_T4.nii.gz" := column [1; 3; 3; 0]]>
     (<["/seg/vertebrae_T5.nii.gz" := column [0; 1; 1; 1]]>
     (<["/seg/vertebrae_T6.nii.gz" := column [0; 0; 0; 0]]>
      (<["/seg/vertebrae_T7.nii.gz" := column [3; 0; 1; 3]]>
       (<["/seg/vertebrae_L5.nii.gz" := column [0; 0; 5; 0]]> ∅)))))
    {[ "/ct/RS.dcm" := {[ "Moelle" := chord ]} ]}.

Definition ex_world : world := ex_world_with ex_chord.

(** A chord that stops above the vertebrae: slice 0 only. *)
Definition ex_short_chord : ndarray bool :=
  chord_column [true; false; false; false].

Definition ex_cutter (vs : list string) : ChordCutter :=
  mkChordCutter (Some "/ct/RS.dcm") (Some "/out") "/ct" "Moelle" None
    (Some "/seg") vs.

(** The directories of the small patient: the DICOM series with two
    structure-set files, the segmentations, an empty output directory; one
    converted CT image is already there. *)
Definition ex_disk : disk :=
  Disk
    (<["/ct" := ["CT.1.dcm"; "RS.1.dcm"; "CT.2.dcm"; "RS.2.dcm"; "ct.nii.gz"]]>
     (<["/seg" := ["vertebrae_T5.nii.gz"; "vertebrae_L5.nii.gz"; "notes.txt"]]>
      (<["/out" := []]> ∅)))
    (<["/ct/ct.nii.gz" := column [7; 8]]> ∅).

(** A converter that writes one image, and one that writes two. *)
Definition ex_convert_one (input_dcm_path : string)
  : list (string * ndarray Z) :=
  [("log.txt", column []); ("4_ct.nii.gz", column [5; 6; 7])].
Definition ex_convert_two (input_dcm_path : string)
  : list (string * ndarray Z) :=
  [("4_ct.nii.gz", column [5; 6; 7]); ("5_ct.nii.gz", column [1])].

(** ** Sums *)

Section Sums.

Lemma sum_upto_ext (n : nat) (f g : nat -> Z) :
  (forall i, (i < n)%nat -> f i = g i) -> sum_upto n f = sum_upto n g.
Proof.
  induction n as [|n IH]; intros Hfg; simpl; [reflexivity|].
  rewrite IH, (Hfg n) by (intros; try apply Hfg; lia). reflexivity.
Qed.

Lemma sum_upto_nonneg (n : nat) (f : nat -> Z) :
  (forall i, (i < n)%nat -> 0 <= f i) -> 0 <= sum_upto n f.
Proof.
  induction n as [|n IH]; intros Hf; simpl; [lia|].
  specialize (Hf n ltac:(lia)) as Hn.
  assert (0 <= sum_upto n f) by (apply IH; intros; apply Hf; lia). lia.
Qed.

Lemma sum_upto_term_le (n : nat) (f : nat -> Z) (k : nat) :
  (forall i, (i < n)%nat -> 0 <= f i) -> (k < n)%nat -> f k <= sum_upto n f.
Proof.
  induction n as [|n IH]; intros Hf Hk; [lia|]. simpl.
  assert (0 <= sum_upto n f) by (apply sum_upto_nonneg; intros; apply Hf; lia).
  destruct (decide (k = n)) as [->|Hne].
  - lia.
  - specialize (Hf n ltac:(lia)) as Hn.
    assert (f k <= sum_upto n f) by (apply IH; [intros; apply Hf|]; lia). lia.
Qed.

Lemma sum_upto_zero (n : nat) (f : nat -> Z) :
  (forall i, (i < n)%nat -> f i = 0) -> sum_upto n f = 0.
Proof.
  induction n as [|n IH]; intros Hf; simpl; [reflexivity|].
  rewrite IH, Hf by (intros; try apply Hf; lia). reflexivity.
Qed.

Lemma sum_upto_plus (n : nat) (f g : nat -> Z) :
  sum_upto n (fun i => f i + g i) = sum_upto n f + sum_upto n g.
Proof. induction n as [|n IH]; simpl; [reflexivity|]. rewrite IH. lia. Qed.

Lemma sum_upto_swap (n m : nat) (f : nat -> nat -> Z) :
  sum_upto n (fun i => sum_upto m (fun j => f i j))
  = sum_upto m (fun j => sum_upto n (fun i => f i j)).
Proof.
  induction n as [|n IH]; simpl.
  - symmetry. apply sum_upto_zero. reflexivity.
  - rewrite IH, <- sum_upto_plus. reflexivity.
Qed.

(** [a.sum()] is the sum of the entries of [a.sum((0,1))]. *)
Lemma np_sum_slices (a : ndarray Z) :
  np_sum a = sum_upto (dim2 a) (slice_count a).
Proof.
  unfold np_sum, slice_count.
  transitivity (sum_upto (dim0 a) (fun i => sum_upto (dim2 a) (fun k =>
                  sum_upto (dim1 a) (fun j => item a i j k)))).
  - apply sum_upto_ext. intros i _. apply sum_upto_swap.
  - apply (sum_upto_swap (dim0 a) (dim2 a)
             (fun i k => sum_upto (dim1 a) (fun j => item a i j k))).
Qed.

Lemma slice_count_nonneg (a : ndarray Z) (k : nat) :
  (forall i j, 0 <= item a i j k) -> 0 <= slice_count a k.
Proof.
  intros Ha. unfold slice_count.
  apply sum_upto_nonneg. intros i _. apply sum_upto_nonneg. intros j _. apply Ha.
Qed.

Lemma slice_count_le_total (a : ndarray Z) (k : nat) :
  (forall i j z, 0 <= item a i j z) -> (k < dim2 a)%nat ->
  slice_count a k <= np_sum a.
Proof.
  intros Ha Hk. rewrite np_sum_slices.
  apply sum_upto_term_le; [|exact Hk].
  intros z _. apply slice_count_nonneg. intros; apply Ha.
Qed.

End Sums.

(** ** [np.where], [min] and [max] *)

Section Where.

Lemma elem_of_where_from (cond : list bool) (i k : nat) :
  k ∈ where_from i cond <-> (i <= k)%nat /\ cond !! (k - i)%nat = Some true.
Proof.
  revert i. induction cond as [|b rest IH]; intros i; simpl.
  - rewrite elem_of_nil. split; [tauto|]. intros [_ H]. discriminate.
  - assert (Hrest : k ∈ where_from (S i) rest <->
                    (i < k)%nat /\ (b :: rest) !! (k - i)%nat = Some true).
    { rewrite IH. split.
      - intros [Hle Hk]. split; [lia|].
        replace (k - i)%nat with (S (k - S i)) by lia. exact Hk.
      - intros [Hlt Hk]. split; [lia|].
        replace (k - i)%nat with (S (k - S i)) in Hk by lia. exact Hk. }
    destruct b.
    + rewrite elem_of_cons, Hrest. split.
      * intros [->|[Hlt Hk]]; [|split; [lia|exact Hk]].
        split; [lia|]. by rewrite Nat.sub_diag.
      * intros [Hle Hk]. destruct (decide (k = i)) as [->|Hne]; [by left|].
        right. split; [lia|exact Hk].
    + rewrite Hrest. split.
      * intros [Hlt Hk]. split; [lia|exact Hk].
      * intros [Hle Hk]. split; [|exact Hk].
        destruct (decide (k = i)) as [->|Hne]; [|lia].
        rewrite Nat.sub_diag in Hk. discriminate.
Qed.

Lemma elem_of_np_where (cond : list bool) (k : nat) :
  k ∈ np_where cond <-> cond !! k = Some true.
Proof.
  unfold np_where. rewrite elem_of_where_from, Nat.sub_0_r.
  split; [tauto|]. intros H. split; [lia|exact H].
Qed.

Lemma foldl_min_spec (rest : list nat) (a : nat) :
  foldl Nat.min a rest ∈ a :: rest /\
  forall k, k ∈ a :: rest -> (foldl Nat.min a rest <= k)%nat.
Proof.
  revert a. induction rest as [|b rest IH]; intros a; simpl.
  - split; [by left|]. intros k Hk. apply list_elem_of_singleton in Hk. lia.
  - destruct (IH (Nat.min a b)) as [Hin Hle]. split.
    + apply elem_of_cons in Hin as [Heq|Hin].
      * rewrite Heq. destruct (Nat.min_spec a b) as [[_ ->]|[_ ->]];
          [by left|right; by left].
      * right; by right.
    + intros k Hk.
      assert (Hm : (foldl Nat.min (Nat.min a b) rest <= Nat.min a b)%nat)
        by (apply Hle; by left).
      apply elem_of_cons in Hk as [->|Hk]; [lia|].
      apply elem_of_cons in Hk as [->|Hk]; [lia|].
      apply Hle. by right.
Qed.

Lemma foldl_max_spec (rest : list nat) (a : nat) :
  foldl Nat.max a rest ∈ a :: rest /\
  forall k, k ∈ a :: rest -> (k <= foldl Nat.max a rest)%nat.
Proof.
  revert a. induction rest as [|b rest IH]; intros a; simpl.
  - split; [by left|]. intros k Hk. apply list_elem_of_singleton in Hk. lia.
  - destruct (IH (Nat.max a b)) as [Hin Hle]. split.
    + apply elem_of_cons in Hin as [Heq|Hin].
      * rewrite Heq. destruct (Nat.max_spec a b) as [[_ ->]|[_ ->]];
          [right; by left|by left].
      * right; by right.
    + intros k Hk.
      assert (Hm : (Nat.max a b <= foldl Nat.max (Nat.max a b) rest)%nat)
        by (apply Hle; by left).
      apply elem_of_cons in Hk as [->|Hk]; [lia|].
      apply elem_of_cons in Hk as [->|Hk]; [lia|].
      apply Hle. by right.
Qed.

Lemma np_min_ok (arr : list nat) (m : nat) :
  np_min arr = inr m -> m ∈ arr /\ forall k, k ∈ arr -> (m <= k)%nat.
Proof.
  destruct arr as [|a rest]; simpl; [discriminate|].
  intros [= <-]. apply foldl_min_spec.
Qed.

Lemma np_max_ok (arr : list nat) (m : nat) :
  np_max arr = inr m -> m ∈ arr /\ forall k, k ∈ arr -> (k <= m)%nat.
Proof.
  destruct arr as [|a rest]; simpl; [discriminate|].
  intros [= <-]. apply foldl_max_spec.
Qed.

Lemma np_min_raises (arr : list nat) (e : exception) :
  np_min arr = inl e <-> arr = [] /\ e = ValueError zero_size.
Proof.
  destruct arr; simpl; split.
  - by intros [= <-].
  - by intros [_ ->].
  - discriminate.
  - intros [? _]; discriminate.
Qed.

Lemma np_max_raises (arr : list nat) (e : exception) :
  np_max arr = inl e <-> arr = [] /\ e = ValueError zero_size.
Proof.
  destruct arr; simpl; split.
  - by intros [= <-].
  - by intros [_ ->].
  - discriminate.
  - intros [? _]; discriminate.
Qed.

Lemma Qgtb_true (x y : Q) : Qgtb x y = true <-> (y < x)%Q.
Proof.
  unfold Qgtb. rewrite Qgt_alt.
  destruct (x ?= y)%Q; split; congruence.
Qed.

(** The members of [arr_th] are the qualifying slices. *)
Lemma elem_of_arr_th (vert : ndarray Z) (T : Q) (k : nat) :
  k ∈ arr_th_of vert T <-> qualifies vert T k.
Proof.
  unfold arr_th_of, qualifies, above_threshold, np_sum01.
  rewrite elem_of_np_where, !list_lookup_fmap.
  destruct (decide (k < dim2 vert)%nat) as [Hlt|Hge].
  - rewrite lookup_seq_lt by exact Hlt. simpl.
    rewrite <- Qgtb_true. split.
    + intros [= H]. by split.
    + intros [_ H]. by rewrite H.
  - rewrite lookup_seq_ge by lia. simpl. split; [discriminate|tauto].
Qed.

End Where.

(** ** The range of one mask *)

Section Range.

Variable vert : ndarray Z.

Lemma range_of_none (T : Q) :
  range_of vert T = inr None <-> np_sum vert <= 0.
Proof.
  unfold range_of, bind, ret. destruct (Z.leb_spec (np_sum vert) 0) as [Hle|Hgt].
  - split; [intros _; exact Hle|reflexivity].
  - split; [|lia].
    destruct (np_min _); [discriminate|]. destruct (np_max _); discriminate.
Qed.

Lemma range_of_some (T : Q) (minv maxv : nat) :
  range_of vert T = inr (Some (minv, maxv)) ->
  0 < np_sum vert /\ qualifies vert T minv /\ qualifies vert T maxv /\
  forall k, qualifies vert T k -> (minv <= k <= maxv)%nat.
Proof.
  unfold range_of, bind, ret. destruct (Z.leb_spec (np_sum vert) 0) as [Hle|Hgt];
    [discriminate|].
  destruct (np_min _) as [|mn] eqn:Hmin; [discriminate|].
  destruct (np_max _) as [|mx] eqn:Hmax; [discriminate|].
  intros [= <- <-].
  apply np_min_ok in Hmin as [Hmin Hlow]. apply np_max_ok in Hmax as [Hmax Hhigh].
  split; [exact Hgt|]. split; [by apply elem_of_arr_th|].
  split; [by apply elem_of_arr_th|].
  intros k Hk. apply elem_of_arr_th in Hk. split; [by apply Hlow|by apply Hhigh].
Qed.

Lemma range_of_raises (T : Q) (e : exception) :
  range_of vert T = inl e <->
  0 < np_sum vert /\ arr_th_of vert T = [] /\ e = ValueError zero_size.
Proof.
  unfold range_of, bind, ret. destruct (Z.leb_spec (np_sum vert) 0) as [Hle|Hgt].
  - split; [discriminate|lia].
  - destruct (arr_th_of vert T) as [|a rest]; simpl.
    + split; [by intros [= <-]|by intros (_ & _ & ->)].
    + split; [discriminate|]. intros (_ & ? & _); discriminate.
Qed.

Lemma range_of_qualifying (T : Q) (k : nat) :
  0 < np_sum vert -> qualifies vert T k ->
  exists minv maxv, range_of vert T = inr (Some (minv, maxv)).
Proof.
  intros Hgt Hk. apply elem_of_arr_th in Hk.
  destruct (range_of vert T) as [e|[[mn mx]|]] eqn:Hr.
  - apply range_of_raises in Hr as (_ & Hnil & _).
    rewrite Hnil in Hk. by apply elem_of_nil in Hk.
  - by exists mn, mx.
  - apply range_of_none in Hr. lia.
Qed.

Lemma qualifies_mono (T T' : Q) (k : nat) :
  (T <= T')%Q -> qualifies vert T' k -> qualifies vert T k.
Proof.
  intros HT [Hk Hq]. split; [exact Hk|]. eapply Qle_lt_trans; eassumption.
Qed.

(** Under a lower threshold the mask still has a range, and a wider one. *)
Lemma range_of_mono (T T' : Q) (r' : option (nat * nat)) :
  (T <= T')%Q -> range_of vert T' = inr r' ->
  exists r, range_of vert T = inr r /\
    match r', r with
    | Some (minv', maxv'), Some (minv, maxv) =>
        (minv <= minv')%nat /\ (maxv' <= maxv)%nat
    | None, None => True
    | _, _ => False
    end.
Proof.
  intros HT Hr'. destruct r' as [[mn' mx']|].
  - apply range_of_some in Hr' as (Hgt & Hmn & Hmx & _).
    destruct (range_of_qualifying T mn' Hgt (qualifies_mono T T' mn' HT Hmn))
      as (mn & mx & Hr).
    exists (Some (mn, mx)). split; [exact Hr|].
    apply range_of_some in Hr as (_ & _ & _ & Hall).
    pose proof (Hall mn' (qualifies_mono T T' mn' HT Hmn)).
    pose proof (Hall mx' (qualifies_mono T T' mx' HT Hmx)). lia.
  - exists None. split; [|exact I].
    apply range_of_none. by apply (range_of_none T').
Qed.

Hypothesis vert_nonneg : forall i j k, 0 <= item vert i j k.

Lemma positive_total_has_slice :
  0 < np_sum vert -> exists k, (k < dim2 vert)%nat /\ 0 < slice_count vert k.
Proof.
  rewrite np_sum_slices. generalize (dim2 vert) as n.
  induction n as [|n IH]; simpl; [lia|]. intros Hpos.
  destruct (decide (0 < slice_count vert n)) as [Hn|Hn].
  - exists n. split; [lia|exact Hn].
  - assert (slice_count vert n = 0).
    { pose proof (slice_count_nonneg vert n (fun i j => vert_nonneg i j n)). lia. }
    destruct IH as (k & Hk & Hc); [lia|]. exists k. split; [lia|exact Hc].
Qed.

Lemma quotient_nonneg (k : nat) :
  0 < np_sum vert ->
  (0 <= inject_Z (slice_count vert k) / inject_Z (np_sum vert))%Q.
Proof.
  intros Hgt. apply Qle_shift_div_l.
  - change 0%Q with (inject_Z 0). by rewrite <- Zlt_Qlt.
  - rewrite Qmult_0_l. change 0%Q with (inject_Z 0). rewrite <- Zle_Qle.
    apply slice_count_nonneg. intros; apply vert_nonneg.
Qed.

Lemma quotient_le_one (k : nat) :
  0 < np_sum vert -> (k < dim2 vert)%nat ->
  (inject_Z (slice_count vert k) / inject_Z (np_sum vert) <= 1)%Q.
Proof.
  intros Hgt Hk. apply Qle_shift_div_r.
  - change 0%Q with (inject_Z 0). by rewrite <- Zlt_Qlt.
  - rewrite Qmult_1_l, <- Zle_Qle. by apply slice_count_le_total.
Qed.

(** A threshold of zero or less: a mask with a voxel always has a range,
    and below zero that range is every slice. *)
Lemma range_of_nonpositive_threshold (T : Q) :
  (T <= 0)%Q -> 0 < np_sum vert ->
  exists minv maxv, range_of vert T = inr (Some (minv, maxv)) /\
    ((T < 0)%Q -> minv = 0%nat /\ maxv = (dim2 vert - 1)%nat).
Proof.
  intros HT Hgt. destruct (positive_total_has_slice Hgt) as (k & Hk & Hc).
  assert (Hqk : qualifies vert T k).
  { split; [exact Hk|]. eapply Qle_lt_trans; [exact HT|].
    apply Qlt_shift_div_l.
    - change 0%Q with (inject_Z 0). by rewrite <- Zlt_Qlt.
    - rewrite Qmult_0_l. change 0%Q with (inject_Z 0). by rewrite <- Zlt_Qlt. }
  destruct (range_of_qualifying T k Hgt Hqk) as (mn & mx & Hr).
  exists mn, mx. split; [exact Hr|]. intros Hneg.
  apply range_of_some in Hr as (_ & [Hmn _] & [Hmx _] & Hall).
  assert (Hq : forall z, (z < dim2 vert)%nat -> qualifies vert T z).
  { intros z Hz. split; [exact Hz|].
    eapply Qlt_le_trans; [exact Hneg|by apply quotient_nonneg]. }
  assert (H0 : (0 < dim2 vert)%nat) by lia.
  assert (Hlast : (dim2 vert - 1 < dim2 vert)%nat) by lia.
  pose proof (Hall _ (Hq _ H0)). pose proof (Hall _ (Hq _ Hlast)). lia.
Qed.

(** A threshold of one or more: no slice qualifies. *)
Lemma no_slice_qualifies_from_one (T : Q) (k : nat) :
  (1 <= T)%Q -> 0 < np_sum vert -> ~ qualifies vert T k.
Proof.
  intros HT Hgt [Hk Hq].
  apply (Qlt_irrefl T). eapply Qlt_le_trans; [exact Hq|].
  eapply Qle_trans; [by apply quotient_le_one|exact HT].
Qed.

End Range.

(** ** The loop of [cut_chord] *)

Section Loop.

Variables (self : ChordCutter) (w : world) (T : Q).
Variables (chord : option (ndarray bool)) (verbose : Z).

Lemma store_lookup_eq {A : Type} (k : string) (x : option A) (d : gmap string A) :
  store k x d !! k = match x with Some a => Some a | None => d !! k end.
Proof. destruct x; simpl; [apply lookup_insert_eq|reflexivity]. Qed.

Lemma store_lookup_ne {A : Type} (k k' : string) (x : option A) (d : gmap string A) :
  k ≠ k' -> store k x d !! k' = d !! k'.
Proof. intros Hne. destruct x; simpl; [by apply lookup_insert_ne|reflexivity]. Qed.

(** Two updates in a row, read at a key [k] whose own update is [x]. *)
Lemma store_twice {A : Type} (k a : string) (x xa : option A)
    (d d1 d2 : gmap string A) :
  (a = k -> xa = x) ->
  d1 !! k = store a xa d !! k ->
  d2 !! k = store k x d1 !! k ->
  d2 !! k = store k x d !! k.
Proof.
  intros Hx H1 H2. rewrite H2, !store_lookup_eq.
  destruct x as [y|]; [reflexivity|]. rewrite H1.
  destruct (decide (a = k)) as [Heq|Hne].
  - rewrite (Hx Heq). subst a. by rewrite store_lookup_eq.
  - by apply store_lookup_ne.
Qed.

(** The body either raises what [vertebra_range] raises, or updates the
    two dictionaries with what [vertebra_range] and [chord_segment] give. *)
Lemma cut_chord_body_spec (v : string) (st : locals) :
  match cut_chord_body self w T chord verbose v st, vertebra_range self w T v with
  | inr st', inr r =>
      values st' = store v r (values st) /\
      all_seg_chord_masks st' =
        store v (chord_segment chord r) (all_seg_chord_masks st)
  | inl e, inl e' => e = e'
  | _, _ => False
  end.
Proof.
  unfold cut_chord_body, vertebra_range, vertebra_mask, range_of, arr_th_of, bind.
  destruct (seg_file self (v +:+ ".nii.gz")) as [e|full_path]; [reflexivity|].
  destruct (load_nifti w full_path true) as [e|vert]; [reflexivity|].
  destruct (np_sum vert <=? 0).
  { simpl. destruct chord, (1 <? verbose); split; reflexivity. }
  destruct (np_min _) as [e|minv]; [reflexivity|].
  destruct (np_max _) as [e|maxv]; [reflexivity|].
  unfold ret, chord_segment, chord_t_of.
  destruct chord as [c|].
  - destruct (np_sum _ <? 1), (1 <? verbose), (0 <? verbose);
      split; reflexivity.
  - destruct (1 <? verbose); split; reflexivity.
Qed.

Lemma for_each_body_spec (vs : list string) (st : locals) :
  match for_each (cut_chord_body self w T chord verbose) vs st with
  | inr st' =>
      (forall v, v ∈ vs -> exists r, vertebra_range self w T v = inr r) /\
      (forall v r, v ∈ vs -> vertebra_range self w T v = inr r ->
         values st' !! v = store v r (values st) !! v /\
         all_seg_chord_masks st' !! v =
           store v (chord_segment chord r) (all_seg_chord_masks st) !! v) /\
      (forall v, v ∉ vs ->
         values st' !! v = values st !! v /\
         all_seg_chord_masks st' !! v = all_seg_chord_masks st !! v)
  | inl e => exists v, v ∈ vs /\ vertebra_range self w T v = inl e
  end.
Proof.
  revert st. induction vs as [|a rest IH]; intros st; simpl.
  - split; [|split].
    + intros v Hv. by apply elem_of_nil in Hv.
    + intros v r Hv. by apply elem_of_nil in Hv.
    + intros v _. split; reflexivity.
  - unfold bind. pose proof (cut_chord_body_spec a st) as Hbody.
    destruct (cut_chord_body self w T chord verbose a st) as [e|st1].
    { destruct (vertebra_range self w T a) as [e'|] eqn:Ha; [|contradiction].
      subst e'. exists a. split; [by left|exact Ha]. }
    destruct (vertebra_range self w T a) as [|ra] eqn:Ha; [contradiction|].
    destruct Hbody as [Hval1 Hmask1].
    specialize (IH st1).
    destruct (for_each _ rest st1) as [e|st'].
    { destruct IH as (v & Hv & He). exists v. split; [by right|exact He]. }
    destruct IH as (Hall & Hin & Hout). split; [|split].
    + intros v Hv. apply elem_of_cons in Hv as [->|Hv]; [by exists ra|by apply Hall].
    + intros v r Hv Hr.
      assert (Hra : a = v -> ra = r) by (intros ->; congruence).
      destruct (decide (v ∈ rest)) as [Hrest|Hrest].
      * destruct (Hin v r Hrest Hr) as [Hv1 Hm1]. split.
        -- apply (store_twice v a r ra (values st) (values st1));
             [exact Hra|by rewrite Hval1|exact Hv1].
        -- apply (store_twice v a _ (chord_segment chord ra)
                    (all_seg_chord_masks st) (all_seg_chord_masks st1));
             [|by rewrite Hmask1|exact Hm1].
           intros Heq. by rewrite (Hra Heq).
      * apply elem_of_cons in Hv as [->|Hv]; [|contradiction].
        destruct (Hout a Hrest) as [Hv1 Hm1].
        rewrite Hv1, Hm1, Hval1, Hmask1, (Hra eq_refl). split; reflexivity.
    + intros v Hv. apply not_elem_of_cons in Hv as [Hne Hrest].
      destruct (Hout v Hrest) as [Hv1 Hm1].
      rewrite Hv1, Hm1, Hval1, Hmask1.
      split; apply store_lookup_ne; congruence.
Qed.

End Loop.

(** ** [cut_chord] as a whole *)

Section CutChord.

Variables (self : ChordCutter) (w : world) (T : Q).
Variables (save_as_RS : bool) (verbose : Z).

Lemma chord_for_save (c : option (ndarray bool)) :
  chord_for self w save_as_RS = inr c ->
  if save_as_RS then is_Some c /\ is_Some (_vertebrae_RS_path self)
  else c = None.
Proof.
  unfold chord_for, bind, ret. destruct save_as_RS; [|by intros [= <-]].
  destruct (_vertebrae_RS_path self); [|discriminate].
  destruct (load_rs _ _ _ _); [discriminate|]. intros [= <-]. split; eauto.
Qed.

(** A call that returns has read every vertebra of the list, and its three
    outputs are determined vertebra by vertebra. *)
Lemma cut_chord_inv (out : outcome) :
  cut_chord self w T save_as_RS verbose = inr out ->
  exists chord,
    chord_for self w save_as_RS = inr chord /\
    (forall v, v ∈ _vertebrae self -> exists r,
       vertebra_range self w T v = inr r /\
       returned out !! v = r /\
       (v ∈ roi_names out <-> is_Some (chord_segment chord r))) /\
    (forall v, v ∉ _vertebrae self ->
       returned out !! v = None /\ v ∉ roi_names out) /\
    (forall v msk path rois, saved out = Some (path, rois) -> (v, msk) ∈ rois ->
       exists r m, vertebra_range self w T v = inr r /\
         chord_segment chord r = Some m /\ msk = masked_greater0 m).
Proof.
  unfold cut_chord. fold (chord_for self w save_as_RS).
  destruct (chord_for self w save_as_RS) as [e|chord] eqn:Hchord;
    [discriminate|].
  simpl. pose proof (for_each_body_spec self w T chord verbose
                       (_vertebrae self) (Locals ∅ ∅ [])) as Hloop.
  destruct (for_each _ _ _) as [e|st]; [discriminate|]. simpl.
  destruct Hloop as (Hall & Hin & Hout).
  set (rois := omap _ (vertebrae self)).
  assert (Hrois : forall v msk, (v, msk) ∈ rois <->
            v ∈ _vertebrae self /\ exists m,
              all_seg_chord_masks st !! v = Some m /\ msk = masked_greater0 m).
  { intros v msk. unfold rois. rewrite list_elem_of_omap. split.
    - intros (v' & Hv' & Hf).
      destruct (all_seg_chord_masks st !! v') as [m|] eqn:Hm; [|discriminate].
      simpl in Hf. injection Hf as <- <-. split; [exact Hv'|]. by exists m.
    - intros (Hv & m & Hm & ->). exists v. split; [exact Hv|].
      by rewrite Hm. }
  assert (Hnames : forall v, v ∈ rois.*1 <->
            v ∈ _vertebrae self /\ is_Some (all_seg_chord_masks st !! v)).
  { intros v. rewrite list_elem_of_fmap. split.
    - intros ([v' msk] & -> & Hin'). apply Hrois in Hin' as (Hv & m & Hm & _).
      split; [exact Hv|]. by exists m.
    - intros (Hv & m & Hm). exists (v, masked_greater0 m). split; [reflexivity|].
      apply Hrois. split; [exact Hv|]. by exists m. }
  assert (Hmask : forall v r, v ∈ _vertebrae self ->
            vertebra_range self w T v = inr r ->
            all_seg_chord_masks st !! v = chord_segment chord r).
  { intros v r Hv Hr. destruct (Hin v r Hv Hr) as [_ Hm]. simpl in Hm.
    rewrite Hm, store_lookup_eq. destruct (chord_segment chord r); [reflexivity|].
    apply lookup_empty. }
  assert (Hval : forall v r, v ∈ _vertebrae self ->
            vertebra_range self w T v = inr r -> values st !! v = r).
  { intros v r Hv Hr. destruct (Hin v r Hv Hr) as [Hm _]. simpl in Hm.
    rewrite Hm, store_lookup_eq. destruct r; [reflexivity|]. apply lookup_empty. }
  pose proof (chord_for_save chord Hchord) as Hsave.
  destruct save_as_RS.
  - destruct Hsave as [_ [rs_dir Hdir]]. rewrite Hdir. simpl.
    intros [= <-]. exists chord. split; [reflexivity|]. unfold roi_names. simpl.
    split; [|split].
    + intros v Hv. destruct (Hall v Hv) as [r Hr]. exists r.
      split; [exact Hr|]. split; [by apply Hval|].
      rewrite Hnames, (Hmask v r Hv Hr). tauto.
    + intros v Hv. destruct (Hout v Hv) as [Hv1 _]. simpl in Hv1. split.
      * rewrite Hv1. apply lookup_empty.
      * rewrite Hnames. tauto.
    + intros v msk path rois' [= _ <-] Hmem.
      apply Hrois in Hmem as (Hv & m & Hm & ->).
      destruct (Hall v Hv) as [r Hr]. exists r, m.
      split; [exact Hr|]. split; [|reflexivity]. by rewrite <- (Hmask v r Hv Hr).
  - subst chord. simpl. intros [= <-]. exists None.
    split; [reflexivity|]. unfold roi_names. simpl. split; [|split].
    + intros v Hv. destruct (Hall v Hv) as [r Hr]. exists r.
      split; [exact Hr|]. split; [by apply Hval|].
      rewrite elem_of_nil. unfold is_Some. split; [tauto|].
      intros [m Hm]. destruct r as [[? ?]|]; discriminate.
    + intros v Hv. destruct (Hout v Hv) as [Hv1 _]. simpl in Hv1. split.
      * rewrite Hv1. apply lookup_empty.
      * apply not_elem_of_nil.
    + intros v msk path rois' [=].
Qed.

(** The call returns as soon as [chord] is bound and every vertebra of the
    list can be read and has a range or no voxel. *)
Lemma cut_chord_returns (chord : option (ndarray bool)) :
  chord_for self w save_as_RS = inr chord ->
  (forall v, v ∈ _vertebrae self -> exists r, vertebra_range self w T v = inr r) ->
  exists out, cut_chord self w T save_as_RS verbose = inr out.
Proof.
  intros Hchord Hall. unfold cut_chord. fold (chord_for self w save_as_RS).
  rewrite Hchord. simpl.
  pose proof (for_each_body_spec self w T chord verbose
                (_vertebrae self) (Locals ∅ ∅ [])) as Hloop.
  destruct (for_each _ _ _) as [e|st].
  { destruct Hloop as (v & Hv & He). destruct (Hall v Hv) as [r Hr]. congruence. }
  simpl. pose proof (chord_for_save chord Hchord) as Hsave.
  destruct save_as_RS; [|eauto].
  destruct Hsave as [_ [rs_dir ->]]. eauto.
Qed.

(** An exception raised for one vertebra of the list ends the call. *)
Lemma cut_chord_raises (v : string) (e : exception) :
  v ∈ _vertebrae self -> vertebra_range self w T v = inl e ->
  exists e', cut_chord self w T save_as_RS verbose = inl e'.
Proof.
  intros Hv He.
  destruct (cut_chord self w T save_as_RS verbose) as [e'|out] eqn:Hcut;
    [by exists e'|].
  apply cut_chord_inv in Hcut as (chord & _ & Hall & _).
  destruct (Hall v Hv) as (r & Hr & _). congruence.
Qed.

End CutChord.

(** ** Properties of the slice ranges *)

Lemma vertebra_range_inv (self : ChordCutter) (w : world) (T : Q) (v : string)
    (r : option (nat * nat)) :
  vertebra_range self w T v = inr r <->
  exists vert, vertebra_mask self w v = inr vert /\ range_of vert T = inr r.
Proof.
  unfold vertebra_range, bind. destruct (vertebra_mask self w v) as [e|vert].
  - split; [discriminate|]. intros (vert & [=] & _).
  - split; [by exists vert|]. by intros (vert' & [= <-] & Hr).
Qed.

Lemma vertebra_range_mono (self : ChordCutter) (w : world) (T T' : Q) (v : string)
    (r' : option (nat * nat)) :
  (T <= T')%Q -> vertebra_range self w T' v = inr r' ->
  exists r, vertebra_range self w T v = inr r /\
    match r', r with
    | Some (minv', maxv'), Some (minv, maxv) =>
        (minv <= minv')%nat /\ (maxv' <= maxv)%nat
    | None, None => True
    | _, _ => False
    end.
Proof.
  intros HT Hr'. apply vertebra_range_inv in Hr' as (vert & Hvert & Hr').
  destruct (range_of_mono vert T T' r' HT Hr') as (r & Hr & Hrel).
  exists r. split; [|exact Hrel]. apply vertebra_range_inv. by exists vert.
Qed.

(** A returned range comes from a mask with voxels, and its two ends are
    qualifying slices. *)
Lemma returned_range_inv (self : ChordCutter) (w : world) (T : Q)
    (save_as_RS : bool) (verbose : Z) (out : outcome) (v : string)
    (minv maxv : nat) :
  cut_chord self w T save_as_RS verbose = inr out ->
  returned out !! v = Some (minv, maxv) ->
  exists vert, vertebra_mask self w v = inr vert /\ 0 < np_sum vert /\
    qualifies vert T minv /\ qualifies vert T maxv /\ (minv <= maxv)%nat.
Proof.
  intros Hcut Hv. apply cut_chord_inv in Hcut as (chord & _ & Hin & Hout & _).
  destruct (decide (v ∈ _vertebrae self)) as [Hmem|Hmem].
  - destruct (Hin v Hmem) as (r & Hr & Hret & _).
    rewrite Hv in Hret. subst r.
    apply vertebra_range_inv in Hr as (vert & Hvert & Hr).
    apply range_of_some in Hr as (Hgt & Hmn & Hmx & Hall).
    exists vert. repeat split; try assumption; try apply Hmn; try apply Hmx.
    apply (Hall minv Hmn).
  - destruct (Hout v Hmem) as [Hnone _]. congruence.
Qed.

(** C5: when [cut_chord] returns a range [(minv, maxv)] for a vertebra, its
    mask has a positive total and both [minv] and [maxv] are slices with
    [slice/total > T]; they are members of the qualifying set (and
    [minv <= maxv]). Holds for every [T], in particular for [0 < T < 1]. *)
Theorem range_ends_qualify (self : ChordCutter) (w : world) (T : Q)
    (save_as_RS : bool) (verbose : Z) (out : outcome) (v : string)
    (minv maxv : nat) :
  cut_chord self w T save_as_RS verbose = inr out ->
  returned out !! v = Some (minv, maxv) ->
  exists vert, vertebra_mask self w v = inr vert /\ 0 < np_sum vert /\
    qualifies vert T minv /\ qualifies vert T maxv /\ (minv <= maxv)%nat.
Proof. apply returned_range_inv. Qed.

Lemma range_ends_qualify_witness :
  exists vert,
    vertebra_mask (ex_cutter ["vertebrae_T7"]) ex_world "vertebrae_T7" = inr vert /\
    0 < np_sum vert /\
    qualifies vert (1 # 4) 0 /\ qualifies vert (1 # 4) 3 /\ (0 <= 3)%nat.
Proof.
  apply (range_ends_qualify (ex_cutter ["vertebrae_T7"]) ex_world (1 # 4) false 0
           (Outcome {[ "vertebrae_T7" := (0%nat, 3%nat) ]} [] None)
           "vertebrae_T7" 0 3).
  - vm_compute; reflexivity.
  - vm_compute; reflexivity.
Defined.

(** The slices between the two ends need not qualify: T7 has the range
    (0, 3) under [T = 1/4], and neither slice 1 (no voxel) nor slice 2 (one
    voxel of seven) qualifies. *)
Lemma interior_slice_need_not_qualify :
  cut_chord (ex_cutter ["vertebrae_T7"]) ex_world (1 # 4) false 0
    = inr (Outcome {[ "vertebrae_T7" := (0%nat, 3%nat) ]} [] None) /\
  ~ qualifies (loaded (column [3; 0; 1; 3])) (1 # 4) 1 /\
  ~ qualifies (loaded (column [3; 0; 1; 3])) (1 # 4) 2.
Proof.
  split; [vm_compute; reflexivity|].
  split; intros [_ Hq]; vm_compute in Hq; discriminate.
Qed.

(** C6: for the same cutter and files, if the call under the higher
    threshold [T'] returns, so does the call under [T < T'], and every range
    of the first lies inside the range of the same vertebra in the second. *)
Theorem raising_threshold_shrinks (self : ChordCutter) (w : world) (T T' : Q)
    (save_as_RS : bool) (verbose : Z) (out' : outcome) :
  (T < T')%Q ->
  cut_chord self w T' save_as_RS verbose = inr out' ->
  exists out, cut_chord self w T save_as_RS verbose = inr out /\
    forall v minv' maxv', returned out' !! v = Some (minv', maxv') ->
      exists minv maxv, returned out !! v = Some (minv, maxv) /\
        (minv <= minv')%nat /\ (maxv' <= maxv)%nat.
Proof.
  intros HT Hcut'. apply Qlt_le_weak in HT.
  apply cut_chord_inv in Hcut' as (chord & Hchord & Hin' & Hout' & _).
  destruct (cut_chord_returns self w T save_as_RS verbose chord Hchord)
    as [out Hcut].
  { intros v Hv. destruct (Hin' v Hv) as (r' & Hr' & _).
    destruct (vertebra_range_mono self w T T' v r' HT Hr') as (r & Hr & _).
    by exists r. }
  exists out. split; [exact Hcut|]. intros v mn' mx' Hv'.
  apply cut_chord_inv in Hcut as (chord0 & _ & Hin & _).
  destruct (decide (v ∈ _vertebrae self)) as [Hmem|Hmem].
  - destruct (Hin' v Hmem) as (r' & Hr' & Hret' & _).
    destruct (Hin v Hmem) as (r & Hr & Hret & _).
    destruct (vertebra_range_mono self w T T' v r' HT Hr') as (r0 & Hr0 & Hrel).
    assert (r0 = r) by congruence. subst r0.
    rewrite Hv' in Hret'. subst r'.
    destruct r as [[mn mx]|]; [|contradiction]. by exists mn, mx.
  - destruct (Hout' v Hmem) as [Hnone _]. congruence.
Qed.

Lemma raising_threshold_shrinks_witness :
  exists out,
    cut_chord (ex_cutter ["vertebrae_T4"]) ex_world (1 # 10) false 0 = inr out /\
    forall v minv' maxv',
      returned (Outcome {[ "vertebrae_T4" := (1%nat, 2%nat) ]} [] None) !! v
        = Some (minv', maxv') ->
      exists minv maxv, returned out !! v = Some (minv, maxv) /\
        (minv <= minv')%nat /\ (maxv' <= maxv)%nat.
Proof.
  apply (raising_threshold_shrinks (ex_cutter ["vertebrae_T4"]) ex_world
           (1 # 10) (1 # 4) false 0
           (Outcome {[ "vertebrae_T4" := (1%nat, 2%nat) ]} [] None)).
  - vm_compute; reflexivity.
  - vm_compute; reflexivity.
Defined.

(** C8: a vertebra whose loaded mask has no voxel ([total <= 0], which for a
    mask is [total == 0]) is passed over by the loop body without an
    exception and without a change to the two dictionaries, whatever [T] is,
    and it has no entry in the dictionary that [cut_chord] returns. *)
Theorem empty_mask_has_no_range (self : ChordCutter) (w : world) (v : string)
    (vert : ndarray Z) :
  vertebra_mask self w v = inr vert -> np_sum vert <= 0 ->
  (forall T chord verbose st, exists st',
     cut_chord_body self w T chord verbose v st = inr st' /\
     values st' = values st /\
     all_seg_chord_masks st' = all_seg_chord_masks st) /\
  (forall T save_as_RS verbose out,
     cut_chord self w T save_as_RS verbose = inr out -> returned out !! v = None).
Proof.
  intros Hvert Htotal.
  assert (Hrange : forall T, vertebra_range self w T v = inr None).
  { intros T. apply vertebra_range_inv. exists vert.
    split; [exact Hvert|]. by apply range_of_none. }
  split.
  - intros T chord verbose st.
    pose proof (cut_chord_body_spec self w T chord verbose v st) as Hbody.
    rewrite Hrange in Hbody.
    destruct (cut_chord_body self w T chord verbose v st) as [e|st'];
      [contradiction|].
    exists st'. split; [reflexivity|].
    destruct Hbody as [Hval Hmask]. destruct chord; by rewrite Hval, Hmask.
  - intros T save_as_RS verbose out Hcut.
    apply cut_chord_inv in Hcut as (chord & _ & Hin & Hout & _).
    destruct (decide (v ∈ _vertebrae self)) as [Hmem|Hmem].
    + destruct (Hin v Hmem) as (r & Hr & Hret & _). rewrite Hret.
      rewrite Hrange in Hr. congruence.
    + by destruct (Hout v Hmem).
Qed.

Lemma empty_mask_has_no_range_witness :
  (forall T chord verbose st, exists st',
     cut_chord_body (ex_cutter ["vertebrae_T6"; "vertebrae_T5"]) ex_world T chord
       verbose "vertebrae_T6" st = inr st' /\
     values st' = values st /\
     all_seg_chord_masks st' = all_seg_chord_masks st) /\
  (forall T save_as_RS verbose out,
     cut_chord (ex_cutter ["vertebrae_T6"; "vertebrae_T5"]) ex_world T save_as_RS
       verbose = inr out ->
     returned out !! "vertebrae_T6" = None).
Proof.
  apply (empty_mask_has_no_range (ex_cutter ["vertebrae_T6"; "vertebrae_T5"])
           ex_world "vertebrae_T6" (loaded (column [0; 0; 0; 0]))).
  - reflexivity.
  - vm_compute. discriminate.
Defined.

(** ** Properties of the chord segments *)

(** The voxels of [chord_t]: the chord on the slices [minv <= k < maxv],
    zero on every other slice. *)
Lemma chord_t_voxel (chord : ndarray bool) (minv maxv i j k : nat) :
  item (chord_t_of chord minv maxv) i j k =
  if (minv <=? k)%nat && (k <? maxv)%nat then bool_to_Z (item chord i j k) else 0.
Proof. reflexivity. Qed.

Lemma chord_t_outside (chord : ndarray bool) (minv maxv i j k : nat) :
  (k < minv \/ maxv <= k)%nat -> item (chord_t_of chord minv maxv) i j k = 0.
Proof.
  intros Hk. rewrite chord_t_voxel.
  destruct (Nat.leb_spec minv k), (Nat.ltb_spec k maxv); simpl; try reflexivity.
  lia.
Qed.

Lemma chord_t_degenerate_sum (chord : ndarray bool) (z : nat) :
  np_sum (chord_t_of chord z z) = 0.
Proof.
  unfold np_sum. apply sum_upto_zero. intros i _.
  apply sum_upto_zero. intros j _. apply sum_upto_zero. intros k _.
  apply chord_t_outside. lia.
Qed.

(** C10: when [cut_chord] returns the degenerate range [(z, z)] for a
    vertebra, [chord_t] for that range is zero everywhere and sums to zero,
    whatever the chord is (the slice [z:z] is empty), and the vertebra is not
    among the ROIs of the saved structure set. *)
Theorem degenerate_range_has_no_segment (self : ChordCutter) (w : world) (T : Q)
    (save_as_RS : bool) (verbose : Z) (out : outcome) (v : string) (z : nat) :
  cut_chord self w T save_as_RS verbose = inr out ->
  returned out !! v = Some (z, z) ->
  (forall chord i j k, item (chord_t_of chord z z) i j k = 0) /\
  (forall chord, np_sum (chord_t_of chord z z) = 0) /\
  v ∉ roi_names out.
Proof.
  intros Hcut Hv. split; [|split].
  - intros chord i j k. apply chord_t_outside. lia.
  - intros chord. apply chord_t_degenerate_sum.
  - apply cut_chord_inv in Hcut as (chord & _ & Hin & Hout & _).
    destruct (decide (v ∈ _vertebrae self)) as [Hmem|Hmem].
    + destruct (Hin v Hmem) as (r & _ & Hret & Hroi).
      rewrite Hv in Hret. subst r. rewrite Hroi.
      intros [m Hm]. destruct chord as [c|]; simpl in Hm; [|discriminate].
      rewrite chord_t_degenerate_sum in Hm. discriminate.
    + by destruct (Hout v Hmem).
Qed.

Lemma degenerate_range_has_no_segment_witness :
  (forall chord i j k, item (chord_t_of chord 2 2) i j k = 0) /\
  (forall chord, np_sum (chord_t_of chord 2 2) = 0) /\
  "vertebrae_L5" ∉
    roi_names (Outcome {[ "vertebrae_L5" := (2%nat, 2%nat) ]} []
                 (Some ("/out/vertebrae.dcm", []))).
Proof.
  apply (degenerate_range_has_no_segment (ex_cutter ["vertebrae_L5"]) ex_world
           (1 # 4) true 0
           (Outcome {[ "vertebrae_L5" := (2%nat, 2%nat) ]} []
              (Some ("/out/vertebrae.dcm", [])))
           "vertebrae_L5" 2).
  - vm_compute; reflexivity.
  - vm_compute; reflexivity.
Defined.

(** C7: when the chord is bound ([save_as_RS]), a listed vertebra has the
    range [(minv, maxv)] and [chord_t] for that range sums to zero, a call
    that returns has the entry [(minv, maxv)] for the vertebra in its
    dictionary and no ROI for it in the saved structure set. *)
Theorem no_overlap_keeps_range (self : ChordCutter) (w : world) (T : Q)
    (save_as_RS : bool) (verbose : Z) (out : outcome) (chord : ndarray bool)
    (v : string) (minv maxv : nat) :
  cut_chord self w T save_as_RS verbose = inr out ->
  chord_for self w save_as_RS = inr (Some chord) ->
  v ∈ _vertebrae self ->
  vertebra_range self w T v = inr (Some (minv, maxv)) ->
  np_sum (chord_t_of chord minv maxv) = 0 ->
  returned out !! v = Some (minv, maxv) /\ v ∉ roi_names out.
Proof.
  intros Hcut Hchord Hmem Hrange Hsum.
  apply cut_chord_inv in Hcut as (chord0 & Hchord0 & Hin & _).
  assert (chord0 = Some chord) by congruence. subst chord0.
  destruct (Hin v Hmem) as (r & Hr & Hret & Hroi).
  rewrite Hrange in Hr. injection Hr as <-.
  split; [exact Hret|]. rewrite Hroi. simpl. rewrite Hsum. simpl.
  intros [m Hm]. discriminate.
Qed.

Lemma no_overlap_keeps_range_witness :
  returned (Outcome {[ "vertebrae_T5" := (1%nat, 3%nat) ]} []
              (Some ("/out/vertebrae.dcm", []))) !! "vertebrae_T5"
    = Some (1%nat, 3%nat) /\
  "vertebrae_T5" ∉
    roi_names (Outcome {[ "vertebrae_T5" := (1%nat, 3%nat) ]} []
                 (Some ("/out/vertebrae.dcm", []))).
Proof.
  apply (no_overlap_keeps_range (ex_cutter ["vertebrae_T5"])
           (ex_world_with ex_short_chord) (1 # 4) true 0
           (Outcome {[ "vertebrae_T5" := (1%nat, 3%nat) ]} []
              (Some ("/out/vertebrae.dcm", [])))
           ex_short_chord "vertebrae_T5" 1 3).
  - vm_compute; reflexivity.
  - reflexivity.
  - left.
  - vm_compute; reflexivity.
  - reflexivity.
Defined.

(** The last slice of a range is never copied into [chord_t]. *)
Lemma chord_t_drops_last_slice (chord : ndarray bool) (minv maxv i j : nat) :
  item (chord_t_of chord minv maxv) i j maxv = 0.
Proof. apply chord_t_outside. lia. Qed.

(** C3, evaluated: T5 occupies the slices 1 to 3 and the chord is present on
    all four slices. [cut_chord] returns the range (1, 3) and saves one ROI
    for T5; that ROI holds the chord on the slices 1 and 2 and is empty on the
    slice 3, the last slice of the range, where the chord is present. *)
Theorem segment_misses_last_slice :
  exists out msk,
    cut_chord (ex_cutter ["vertebrae_T5"]) ex_world (1 # 4) true 0 = inr out /\
    returned out !! "vertebrae_T5" = Some (1%nat, 3%nat) /\
    saved out = Some ("/out/vertebrae.dcm", [("vertebrae_T5", msk)]) /\
    map (fun k => item msk 0%nat 0%nat k) (seq 0 4) = [false; true; true; false] /\
    map (fun k => item ex_chord 0%nat 0%nat k) (seq 0 4) = [true; true; true; true].
Proof.
  eexists _, _. split; [vm_compute; reflexivity|].
  split; [reflexivity|]. split; [reflexivity|]. split; reflexivity.
Qed.

(** L5 sits in slice 2 and the chord is present there, yet the call prints
    that chord and vertebra do not overlap and saves no ROI for L5. *)
Lemma single_slice_vertebra_reported_as_no_overlap :
  item ex_chord 0%nat 0%nat 2%nat = true /\
  cut_chord (ex_cutter ["vertebrae_L5"]) ex_world (1 # 4) true 1
    = inr (Outcome {[ "vertebrae_L5" := (2%nat, 2%nat) ]}
             ["vertebrae_L5: no overlap between chord and vertebrae"]
             (Some ("/out/vertebrae.dcm", []))).
Proof. split; [reflexivity|vm_compute; reflexivity]. Qed.

(** ** Exceptions that end the call *)

(** A listed vertebra with voxels but without a qualifying slice ends the
    call with an exception, whatever the other vertebrae are. *)
Lemma no_qualifying_slice_ends_call (self : ChordCutter) (w : world) (T : Q)
    (save_as_RS : bool) (verbose : Z) (v : string) (vert : ndarray Z) :
  v ∈ _vertebrae self -> vertebra_mask self w v = inr vert ->
  0 < np_sum vert -> (forall k, ~ qualifies vert T k) ->
  exists e, cut_chord self w T save_as_RS verbose = inl e.
Proof.
  intros Hmem Hvert Hgt Hnone.
  apply (cut_chord_raises self w T save_as_RS verbose v (ValueError zero_size) Hmem).
  unfold vertebra_range, bind. rewrite Hvert.
  apply range_of_raises. split; [exact Hgt|]. split; [|reflexivity].
  destruct (arr_th_of vert T) as [|k rest] eqn:Harr; [reflexivity|].
  exfalso. apply (Hnone k), elem_of_arr_th. rewrite Harr. by left.
Qed.

(** C1, evaluated: every slice of T5 holds a third of its three voxels, so
    under [T = 1/2] the index set [arr_th] of T5 is empty. [cut_chord] on the
    list T5, L5 raises the [ValueError] of [min] on an empty array and
    returns nothing, although L5 alone gets the range (2, 2) under the same
    threshold. *)
Theorem no_qualifying_slice_aborts_batch :
  vertebra_mask (ex_cutter ["vertebrae_T5"; "vertebrae_L5"]) ex_world "vertebrae_T5"
    = inr (loaded (column [0; 1; 1; 1])) /\
  np_sum (loaded (column [0; 1; 1; 1])) = 3 /\
  arr_th_of (loaded (column [0; 1; 1; 1])) (1 # 2) = [] /\
  cut_chord (ex_cutter ["vertebrae_T5"; "vertebrae_L5"]) ex_world (1 # 2) false 0
    = inl (ValueError zero_size) /\
  cut_chord (ex_cutter ["vertebrae_L5"]) ex_world (1 # 2) false 0
    = inr (Outcome {[ "vertebrae_L5" := (2%nat, 2%nat) ]} [] None).
Proof.
  split; [reflexivity|]. split; [reflexivity|]. split; [reflexivity|].
  split; vm_compute; reflexivity.
Qed.

(** C4, refuted as stated: there is no image file for T8, and [cut_chord] on
    the list T8, L5 does not pass over T8: it raises the error of the image
    reader and returns nothing. *)
Lemma missing_mask_file_not_skipped :
  nifti_images ex_world !! "/seg/vertebrae_T8.nii.gz" = None /\
  cut_chord (ex_cutter ["vertebrae_T8"; "vertebrae_L5"]) ex_world (1 # 4) false 0
    = inl (RuntimeError "cannot read image /seg/vertebrae_T8.nii.gz").
Proof. split; vm_compute; reflexivity. Qed.

(** C4, amended: a listed vertebra whose image file cannot be read ends the
    call: [cut_chord] raises and returns no result. *)
Theorem missing_mask_file_raises (self : ChordCutter) (w : world) (T : Q)
    (save_as_RS : bool) (verbose : Z) (v seg_dir : string) :
  v ∈ _vertebrae self ->
  _seg_path self = Some seg_dir ->
  nifti_images w !! join seg_dir (v +:+ ".nii.gz") = None ->
  exists e, cut_chord self w T save_as_RS verbose = inl e.
Proof.
  intros Hmem Hdir Hfile.
  apply (cut_chord_raises self w T save_as_RS verbose v
           (RuntimeError ("cannot read image " +:+ join seg_dir (v +:+ ".nii.gz")))
           Hmem).
  unfold vertebra_range, vertebra_mask, seg_file, load_nifti, bind, ret.
  rewrite Hdir. simpl. rewrite Hfile. reflexivity.
Qed.

Lemma missing_mask_file_raises_witness :
  exists e,
    cut_chord (ex_cutter ["vertebrae_L5"; "vertebrae_T8"]) ex_world (1 # 4) true 2
    = inl e.
Proof.
  apply (missing_mask_file_raises (ex_cutter ["vertebrae_L5"; "vertebrae_T8"])
           ex_world (1 # 4) true 2 "vertebrae_T8" "/seg").
  - right; left.
  - reflexivity.
  - vm_compute; reflexivity.
Defined.

(** ** The threshold is not checked *)

Lemma vertebra_mask_nonneg (self : ChordCutter) (w : world) (v : string)
    (vert : ndarray Z) :
  nonneg_images w -> vertebra_mask self w v = inr vert ->
  forall i j k, 0 <= item vert i j k.
Proof.
  intros Hw. unfold vertebra_mask, load_nifti, bind, ret.
  destruct (seg_file self _) as [e|path]; [discriminate|].
  destruct (nifti_images w !! path) as [img|] eqn:Himg; [|discriminate].
  intros [= <-] i j k. simpl. apply (Hw path img Himg).
Qed.

Lemma column_nonneg (counts : list Z) :
  Forall (fun c => 0 <= c) counts -> forall i j k, 0 <= item (column counts) i j k.
Proof.
  intros Hall i j k. simpl. revert i.
  induction Hall as [|c rest Hc _ IH]; intros [|i]; simpl; try lia. apply IH.
Qed.

Lemma ex_world_nonneg (chord : ndarray bool) : nonneg_images (ex_world_with chord).
Proof.
  intros path img. unfold ex_world_with. simpl.
  repeat (rewrite lookup_insert_Some;
          intros [[_ <-]|[_ Himg]];
          [apply column_nonneg; repeat constructor; lia|revert Himg]).
  by rewrite lookup_empty.
Qed.

(** From one upwards the threshold leaves no range in any returned
    dictionary. *)
Lemma threshold_from_one_gives_no_range (self : ChordCutter) (w : world) (T : Q)
    (save_as_RS : bool) (verbose : Z) (out : outcome) (v : string) :
  nonneg_images w -> (1 <= T)%Q ->
  cut_chord self w T save_as_RS verbose = inr out -> returned out !! v = None.
Proof.
  intros Hw HT Hcut.
  destruct (returned out !! v) as [[mn mx]|] eqn:Hv; [|reflexivity].
  destruct (returned_range_inv self w T save_as_RS verbose out v mn mx Hcut Hv)
    as (vert & Hvert & Hgt & Hmn & _).
  exfalso. apply (no_slice_qualifies_from_one vert) with (T := T) (k := mn);
    try assumption.
  by apply (vertebra_mask_nonneg self w v).
Qed.

(** C2, refuted as stated: with [T = 6/5] the call on the unsegmented T6
    returns the empty dictionary, and with [T = -1/4] the call on T5 returns
    the range of all four slices; neither call fails. *)
Lemma threshold_outside_unit_interval_accepted :
  cut_chord (ex_cutter ["vertebrae_T6"]) ex_world (6 # 5) false 0
    = inr (Outcome ∅ [] None) /\
  cut_chord (ex_cutter ["vertebrae_T5"]) ex_world (- (1 # 4)) false 0
    = inr (Outcome {[ "vertebrae_T5" := (0%nat, 3%nat) ]} [] None).
Proof. split; vm_compute; reflexivity. Qed.

(** C2, amended: [cut_chord] has no check of [T]. For [T <= 0] or [1 <= T],
    when the chord is bound, no stored voxel is negative, every listed
    vertebra has a readable image and, in the case [1 <= T], none of these
    images has a voxel, the call returns a dictionary: a vertebra without
    voxels has no entry, a vertebra with voxels has one, and for [T < 0] that
    entry is the range from the first slice to the last. *)
Theorem threshold_is_not_checked (self : ChordCutter) (w : world) (T : Q)
    (save_as_RS : bool) (verbose : Z) (chord : option (ndarray bool)) :
  (T <= 0 \/ 1 <= T)%Q ->
  nonneg_images w ->
  chord_for self w save_as_RS = inr chord ->
  (forall v, v ∈ _vertebrae self -> exists vert,
     vertebra_mask self w v = inr vert /\ ((1 <= T)%Q -> np_sum vert <= 0)) ->
  exists out, cut_chord self w T save_as_RS verbose = inr out /\
    forall v vert, v ∈ _vertebrae self -> vertebra_mask self w v = inr vert ->
      (np_sum vert <= 0 -> returned out !! v = None) /\
      (0 < np_sum vert ->
         is_Some (returned out !! v) /\
         ((T < 0)%Q -> returned out !! v = Some (0%nat, (dim2 vert - 1)%nat))).
Proof.
  intros HT Hw Hchord Hfiles.
  assert (Hrange : forall v vert, v ∈ _vertebrae self ->
            vertebra_mask self w v = inr vert ->
            exists r, vertebra_range self w T v = inr r /\
              (np_sum vert <= 0 -> r = None) /\
              (0 < np_sum vert -> is_Some r /\
                 ((T < 0)%Q -> r = Some (0%nat, (dim2 vert - 1)%nat)))).
  { intros v vert Hmem Hvert.
    destruct (Z.leb_spec (np_sum vert) 0) as [Hle|Hgt].
    - exists None. split; [|split; [reflexivity|lia]].
      apply vertebra_range_inv. exists vert. split; [exact Hvert|].
      by apply range_of_none.
    - assert (HT0 : (T <= 0)%Q).
      { destruct HT as [HT|HT]; [exact HT|].
        destruct (Hfiles v Hmem) as (vert' & Hvert' & Hone).
        assert (vert' = vert) by congruence. subst vert'.
        specialize (Hone HT). lia. }
      destruct (range_of_nonpositive_threshold vert
                  (vertebra_mask_nonneg self w v vert Hw Hvert) T HT0 Hgt)
        as (mn & mx & Hr & Hneg).
      exists (Some (mn, mx)). split; [|split; [lia|]].
      + apply vertebra_range_inv. by exists vert.
      + intros _. split; [by eexists|].
        intros Hlt. destruct (Hneg Hlt) as [-> ->]. reflexivity. }
  destruct (cut_chord_returns self w T save_as_RS verbose chord Hchord)
    as [out Hcut].
  { intros v Hmem. destruct (Hfiles v Hmem) as (vert & Hvert & _).
    destruct (Hrange v vert Hmem Hvert) as (r & Hr & _). by exists r. }
  exists out. split; [exact Hcut|]. intros v vert Hmem Hvert.
  apply cut_chord_inv in Hcut as (chord0 & _ & Hin & _).
  destruct (Hin v Hmem) as (r & Hr & Hret & _).
  destruct (Hrange v vert Hmem Hvert) as (r0 & Hr0 & Hnone & Hsome).
  assert (r0 = r) by congruence. subst r0. rewrite Hret.
  split; assumption.
Qed.

Lemma threshold_is_not_checked_witness :
  exists out,
    cut_chord (ex_cutter ["vertebrae_T5"; "vertebrae_T6"]) ex_world (- (1 # 4))
      true 1 = inr out /\
    forall v vert,
      v ∈ _vertebrae (ex_cutter ["vertebrae_T5"; "vertebrae_T6"]) ->
      vertebra_mask (ex_cutter ["vertebrae_T5"; "vertebrae_T6"]) ex_world v
        = inr vert ->
      (np_sum vert <= 0 -> returned out !! v = None) /\
      (0 < np_sum vert ->
         is_Some (returned out !! v) /\
         ((- (1 # 4) < 0)%Q ->
            returned out !! v = Some (0%nat, (dim2 vert - 1)%nat))).
Proof.
  apply (threshold_is_not_checked (ex_cutter ["vertebrae_T5"; "vertebrae_T6"])
           ex_world (- (1 # 4)) true 1 (Some ex_chord)).
  - left. vm_compute. discriminate.
  - apply ex_world_nonneg.
  - reflexivity.
  - intros v Hv.
    apply elem_of_cons in Hv as [->|Hv];
      [|apply elem_of_cons in Hv as [->|Hv]; [|by apply elem_of_nil in Hv]].
    + exists (loaded (column [0; 1; 1; 1])).
      split; [reflexivity|]. intros H1. vm_compute in H1. by exfalso.
    + exists (loaded (column [0; 0; 0; 0])).
      split; [reflexivity|]. intros _. vm_compute. discriminate.
Defined.

(** ** The list of vertebrae *)

Section Registry.

Lemma vertebrae_add_vertebrae (self : ChordCutter) (v : string) :
  vertebrae (add_vertebrae self v) =
  if bool_decide (v ∈ vertebrae self) then vertebrae self
  else vertebrae self ++ [v].
Proof.
  unfold add_vertebrae, vertebrae.
  destruct (bool_decide (v ∈ _vertebrae self)); reflexivity.
Qed.

Lemma add_vertebrae_present (self : ChordCutter) (v : string) :
  v ∈ vertebrae self -> add_vertebrae self v = self.
Proof.
  intros Hv. unfold add_vertebrae. by rewrite bool_decide_eq_true_2.
Qed.

Lemma elem_of_add_vertebrae (self : ChordCutter) (v : string) :
  v ∈ vertebrae (add_vertebrae self v).
Proof.
  rewrite vertebrae_add_vertebrae. case_bool_decide as Hv; [exact Hv|].
  apply elem_of_app. right. by left.
Qed.

Lemma foldl_add_present (vs : list string) (self : ChordCutter) :
  (forall v, v ∈ vs -> v ∈ vertebrae self) ->
  foldl add_vertebrae self vs = self.
Proof.
  induction vs as [|a vs IH]; intros Hall; simpl; [reflexivity|].
  rewrite add_vertebrae_present by (apply Hall; by left).
  apply IH. intros v Hv. apply Hall. by right.
Qed.

Lemma filter_agree (P Q : string -> Prop) `{!forall x, Decision (P x)}
    `{!forall x, Decision (Q x)} (l : list string) :
  (forall x, x ∈ l -> P x <-> Q x) -> filter P l = filter Q l.
Proof.
  induction l as [|a l IH]; intros Hagree; [reflexivity|].
  rewrite !filter_cons, IH by (intros x Hx; apply Hagree; by right).
  pose proof (Hagree a ltac:(by left)) as Ha.
  destruct (decide (P a)), (decide (Q a)); tauto.
Qed.

(** Adding a duplicate-free list appends, in order, those of its
    identifiers that are new. *)
Lemma vertebrae_foldl_add (vs : list string) (self : ChordCutter) :
  NoDup vs ->
  vertebrae (foldl add_vertebrae self vs) =
  vertebrae self ++ filter (fun v => v ∉ vertebrae self) vs.
Proof.
  revert self. induction vs as [|a vs IH]; intros self Hnd; simpl.
  - by rewrite filter_nil, app_nil_r.
  - apply NoDup_cons in Hnd as [Ha Hnd].
    rewrite (IH _ Hnd), vertebrae_add_vertebrae, filter_cons.
    case_bool_decide as Hmem.
    + rewrite decide_False by tauto. reflexivity.
    + rewrite decide_True by exact Hmem. rewrite <- app_assoc. simpl.
      do 2 f_equal. apply filter_agree.
      intros v Hv. rewrite elem_of_app, list_elem_of_singleton.
      split; [tauto|]. intros Hnot [Hl| ->]; [tauto|contradiction].
Qed.

Lemma NoDup_foldl_add (vs : list string) (self : ChordCutter) :
  NoDup (vertebrae self) -> NoDup (vertebrae (foldl add_vertebrae self vs)).
Proof.
  revert self. induction vs as [|a vs IH]; intros self Hnd; simpl; [exact Hnd|].
  apply IH. rewrite vertebrae_add_vertebrae. case_bool_decide as Hmem; [exact Hnd|].
  apply NoDup_app. split; [exact Hnd|]. split; [|apply NoDup_singleton].
  intros v Hv Hv'. apply list_elem_of_singleton in Hv'. by subst v.
Qed.

Lemma NoDup_cervical : NoDup cervical.
Proof. apply (bool_decide_unpack _). by vm_compute. Qed.

End Registry.

(** C9: [add_vertebrae_group("cervical")] is the seven calls of
    [add_vertebrae] on vertebrae_C1 to vertebrae_C7, in that order: it keeps
    the list it finds and appends those of the seven that are new. A second
    call changes nothing. On an emptied list the first call, and so the
    second, leaves exactly the seven identifiers in order, without
    duplicates. [add_vertebrae] itself does nothing the second time. *)
Theorem cervical_group_twice (self : ChordCutter) :
  (exists once,
     add_vertebrae_group self "cervical" = inr once /\
     once = foldl add_vertebrae self cervical /\
     vertebrae once =
       vertebrae self ++ filter (fun v => v ∉ vertebrae self) cervical /\
     add_vertebrae_group once "cervical" = inr once) /\
  (exists once,
     add_vertebrae_group (remove_all_vertebrae self) "cervical" = inr once /\
     add_vertebrae_group once "cervical" = inr once /\
     vertebrae once =
       ["vertebrae_C1"; "vertebrae_C2"; "vertebrae_C3"; "vertebrae_C4";
        "vertebrae_C5"; "vertebrae_C6"; "vertebrae_C7"] /\
     NoDup (vertebrae once)) /\
  (forall v, add_vertebrae (add_vertebrae self v) v = add_vertebrae self v).
Proof.
  assert (Htwice : forall s,
            add_vertebrae_group (foldl add_vertebrae s cervical) "cervical"
            = inr (foldl add_vertebrae s cervical)).
  { intros s. change (add_vertebrae_group ?x "cervical")
      with (@inr exception _ (foldl add_vertebrae x cervical)).
    f_equal. apply foldl_add_present. intros v Hv.
    rewrite (vertebrae_foldl_add cervical s NoDup_cervical), elem_of_app.
    destruct (decide (v ∈ vertebrae s)) as [Hs|Hs]; [by left|right].
    apply list_elem_of_filter. by split. }
  split; [|split].
  - exists (foldl add_vertebrae self cervical).
    split; [reflexivity|]. split; [reflexivity|].
    split; [apply vertebrae_foldl_add, NoDup_cervical|apply Htwice].
  - exists (foldl add_vertebrae (remove_all_vertebrae self) cervical).
    split; [reflexivity|]. split; [apply Htwice|].
    split; [reflexivity|]. apply NoDup_cervical.
  - intros v. apply add_vertebrae_present, elem_of_add_vertebrae.
Qed.

(** * Further properties of the module *)

(** ** More on [cut_chord] *)

Lemma omap_agree {A B : Type} (f g : A -> option B) (l : list A) :
  (forall x, x ∈ l -> f x = g x) -> omap f l = omap g l.
Proof.
  induction l as [|a l IH]; intros Hfg; [reflexivity|].
  assert (IH' : omap f l = omap g l) by (apply IH; intros x Hx; apply Hfg; by right).
  simpl. rewrite (Hfg a) by (by left).
  destruct (g a); [f_equal|]; exact IH'.
Qed.

(** The structure set that a returning call saves, in closed form. *)
Lemma cut_chord_saved (self : ChordCutter) (w : world) (T : Q)
    (save_as_RS : bool) (verbose : Z) (out : outcome) :
  cut_chord self w T save_as_RS verbose = inr out ->
  exists chord, chord_for self w save_as_RS = inr chord /\
    saved out =
      if save_as_RS
      then (fun rs_dir => (join rs_dir "vertebrae.dcm",
                           omap (roi_of self w T chord) (_vertebrae self)))
             <$> _vertebrae_RS_path self
      else None.
Proof.
  unfold cut_chord. fold (chord_for self w save_as_RS).
  destruct (chord_for self w save_as_RS) as [e|chord] eqn:Hchord;
    [discriminate|].
  simpl. pose proof (for_each_body_spec self w T chord verbose
                       (_vertebrae self) (Locals ∅ ∅ [])) as Hloop.
  destruct (for_each _ _ _) as [e|st]; [discriminate|]. simpl.
  destruct Hloop as (Hall & Hin & _).
  pose proof (chord_for_save self w save_as_RS chord Hchord) as Hsave.
  destruct save_as_RS.
  - destruct Hsave as [_ [rs_dir Hdir]]. rewrite Hdir. simpl.
    intros [= <-]. exists chord. split; [reflexivity|]. simpl.
    do 2 f_equal. apply omap_agree. intros v Hv. unfold roi_of.
    destruct (Hall v Hv) as [r Hr]. rewrite Hr.
    destruct (Hin v r Hv Hr) as [_ Hm]. simpl in Hm.
    rewrite Hm, store_lookup_eq.
    destruct (chord_segment chord r); [reflexivity|]. by rewrite lookup_empty.
  - intros [= <-]. exists chord. by split.
Qed.




(** The dictionary returned is the same for two calls that agree on the
    ranges of the listed vertebrae. *)
Lemma returned_agree (self self' : ChordCutter) (w : world) (T : Q)
    (s s' : bool) (verbose verbose' : Z) (out out' : outcome) :
  (forall v, v ∈ _vertebrae self <-> v ∈ _vertebrae self') ->
  (forall v, vertebra_range self w T v = vertebra_range self' w T v) ->
  cut_chord self w T s verbose = inr out ->
  cut_chord self' w T s' verbose' = inr out' ->
  returned out' = returned out.
Proof.
  intros Hmem Hrange Hcut Hcut'.
  apply cut_chord_inv in Hcut as (chord & _ & Hin & Hout & _).
  apply cut_chord_inv in Hcut' as (chord' & _ & Hin' & Hout' & _).
  apply map_eq. intros v.
  destruct (decide (v ∈ _vertebrae self)) as [Hv|Hv].
  - destruct (Hin v Hv) as (r & Hr & Hret & _).
    destruct (Hin' v (proj1 (Hmem v) Hv)) as (r' & Hr' & Hret' & _).
    rewrite Hret, Hret'. rewrite Hrange in Hr. congruence.
  - destruct (Hout v Hv) as [-> _].
    assert (Hv' : v ∉ _vertebrae self') by (by rewrite <- Hmem).
    by destruct (Hout' v Hv') as [-> _].
Qed.

Lemma chord_for_ok_iff (self : ChordCutter) (w : world) (save_as_RS : bool) :
  (exists chord, chord_for self w save_as_RS = inr chord) <->
  (save_as_RS = true ->
   is_Some (_vertebrae_RS_path self) /\
   exists c, load_rs w (_dcm_input_path self) (_RS_path self) (_chord_name self)
             = inr c).
Proof.
  unfold chord_for, bind, ret. destruct save_as_RS.
  - destruct (_vertebrae_RS_path self) as [rs_dir|].
    + destruct (load_rs _ _ _ _) as [e|c].
      * split; [intros [? [=]]|]. intros H. destruct (H eq_refl) as [_ [c [=]]].
      * split; [|by eexists]. intros _ _. split; [by eexists|by exists c].
    + split; [intros [? [=]]|]. intros H. destruct (H eq_refl) as [[? [=]] _].
  - split; [intros _ [=]|]. intros _. by eexists.
Qed.



(** X2: in the dictionary of a returning call, an identifier has an entry
    exactly when it is listed and its mask has a voxel. *)
Theorem returned_entry_iff (self : ChordCutter) (w : world) (T : Q)
    (save_as_RS : bool) (verbose : Z) (out : outcome) (v : string) :
  cut_chord self w T save_as_RS verbose = inr out ->
  is_Some (returned out !! v) <->
  v ∈ _vertebrae self /\
  exists vert, vertebra_mask self w v = inr vert /\ 0 < np_sum vert.
Proof.
  intros Hcut. apply cut_chord_inv in Hcut as (chord & _ & Hin & Hout & _).
  destruct (decide (v ∈ _vertebrae self)) as [Hv|Hv].
  - destruct (Hin v Hv) as (r & Hr & Hret & _). rewrite Hret.
    apply vertebra_range_inv in Hr as (vert & Hvert & Hr). split.
    + intros [[mn mx] ->]. split; [exact Hv|]. exists vert.
      split; [exact Hvert|]. by apply range_of_some in Hr as [? _].
    + intros (_ & vert' & Hvert' & Hgt).
      assert (vert' = vert) by congruence. subst vert'.
      destruct r; [by eexists|]. apply range_of_none in Hr. lia.
  - destruct (Hout v Hv) as [-> _]. split; [by intros [? [=]]|tauto].
Qed.

Lemma returned_entry_iff_witness :
  is_Some (returned (Outcome {[ "vertebrae_T5" := (1%nat, 3%nat) ]} [] None)
             !! "vertebrae_T5") <->
  "vertebrae_T5" ∈ _vertebrae (ex_cutter ["vertebrae_T6"; "vertebrae_T5"]) /\
  exists vert,
    vertebra_mask (ex_cutter ["vertebrae_T6"; "vertebrae_T5"]) ex_world
      "vertebrae_T5" = inr vert /\ 0 < np_sum vert.
Proof.
  apply (returned_entry_iff (ex_cutter ["vertebrae_T6"; "vertebrae_T5"]) ex_world
           (1 # 4) false 0).
  vm_compute; reflexivity.
Defined.



Lemma sum_upto_pos_term (n : nat) (f : nat -> Z) :
  0 < sum_upto n f -> exists i, (i < n)%nat /\ 0 < f i.
Proof.
  induction n as [|n IH]; simpl; [lia|]. intros Hpos.
  destruct (decide (0 < f n)) as [Hn|Hn].
  - exists n. split; [lia|exact Hn].
  - destruct IH as (i & Hi & Hf); [lia|]. exists i. split; [lia|exact Hf].
Qed.

Lemma np_sum_pos_voxel (a : ndarray Z) :
  0 < np_sum a ->
  exists i j k, (i < dim0 a)%nat /\ (j < dim1 a)%nat /\ (k < dim2 a)%nat /\
    0 < item a i j k.
Proof.
  unfold np_sum. intros H.
  apply sum_upto_pos_term in H as (i & Hi & H).
  apply sum_upto_pos_term in H as (j & Hj & H).
  apply sum_upto_pos_term in H as (k & Hk & H).
  by exists i, j, k.
Qed.

Lemma chord_segment_some (chord : option (ndarray bool)) (r : option (nat * nat))
    (m : ndarray Z) :
  chord_segment chord r = Some m ->
  exists c minv maxv, chord = Some c /\ r = Some (minv, maxv) /\
    m = chord_t_of c minv maxv /\ 1 <= np_sum m.
Proof.
  unfold chord_segment. destruct chord as [c|]; [|discriminate].
  destruct r as [[mn mx]|]; [|discriminate].
  destruct (Z.ltb_spec (np_sum (chord_t_of c mn mx)) 1) as [Hlt|Hge];
    [discriminate|].
  intros [= <-]. by exists c, mn, mx.
Qed.

Lemma chord_for_some (self : ChordCutter) (w : world) (save_as_RS : bool)
    (c : ndarray bool) :
  chord_for self w save_as_RS = inr (Some c) ->
  load_rs w (_dcm_input_path self) (_RS_path self) (_chord_name self) = inr c.
Proof.
  unfold chord_for, bind, ret. destruct save_as_RS; [|discriminate].
  destruct (_vertebrae_RS_path self); [|discriminate].
  destruct (load_rs _ _ _ _); [discriminate|]. by intros [= ->].
Qed.

(** X4: every ROI that a returning call saves for an identifier [v] is the
    chord ROI of the input structure set cut to the slices [minv <= k < maxv]
    of the range returned for [v]: it has the shape of the chord, it is true
    exactly at the chord voxels of these slices, and it has a true voxel. *)
Theorem saved_roi_is_chord_in_range (self : ChordCutter) (w : world) (T : Q)
    (save_as_RS : bool) (verbose : Z) (out : outcome) (path v : string)
    (rois : list (string * ndarray bool)) (msk : ndarray bool) :
  cut_chord self w T save_as_RS verbose = inr out ->
  saved out = Some (path, rois) ->
  (v, msk) ∈ rois ->
  exists chord minv maxv,
    load_rs w (_dcm_input_path self) (_RS_path self) (_chord_name self)
      = inr chord /\
    returned out !! v = Some (minv, maxv) /\
    shape msk = shape chord /\
    (forall i j k, item msk i j k =
                   (minv <=? k)%nat && (k <? maxv)%nat && item chord i j k) /\
    exists i j k, (i < dim0 msk)%nat /\ (j < dim1 msk)%nat /\ (k < dim2 msk)%nat /\
      item msk i j k = true.
Proof.
  intros Hcut Hsaved Hmem.
  destruct (cut_chord_saved self w T save_as_RS verbose out Hcut)
    as (chord & Hchord & Hform).
  apply cut_chord_inv in Hcut as (chord0 & Hchord0 & Hin & _).
  assert (chord0 = chord) by congruence. subst chord0.
  rewrite Hsaved in Hform. destruct save_as_RS; [|discriminate].
  destruct (_vertebrae_RS_path self) as [rs_dir|]; [|discriminate].
  simpl in Hform. injection Hform as -> ->.
  apply list_elem_of_omap in Hmem as (v' & Hv' & Hroi).
  unfold roi_of in Hroi.
  destruct (vertebra_range self w T v') as [e|r] eqn:Hr; [discriminate|].
  destruct (chord_segment chord r) as [m|] eqn:Hseg; [|discriminate].
  simpl in Hroi. injection Hroi as <- <-.
  apply chord_segment_some in Hseg as (c & mn & mx & -> & -> & -> & Hsum).
  destruct (Hin v' Hv') as (r' & Hr' & Hret & _).
  rewrite Hr in Hr'. injection Hr' as <-.
  exists c, mn, mx. split; [by apply (chord_for_some self w true)|].
  split; [exact Hret|]. split; [reflexivity|]. split.
  - intros i j k. simpl.
    destruct ((mn <=? k)%nat && (k <? mx)%nat); simpl; [|reflexivity].
    by destruct (item c i j k).
  - destruct (np_sum_pos_voxel (chord_t_of c mn mx)) as (i & j & k & Hi & Hj & Hk & Hpos);
      [lia|].
    exists i, j, k. repeat split; try assumption.
    simpl. by apply Z.ltb_lt.
Qed.

Lemma saved_roi_is_chord_in_range_witness :
  exists chord minv maxv,
    load_rs ex_world (_dcm_input_path (ex_cutter ["vertebrae_T5"]))
      (_RS_path (ex_cutter ["vertebrae_T5"]))
      (_chord_name (ex_cutter ["vertebrae_T5"])) = inr chord /\
    returned (Outcome {[ "vertebrae_T5" := (1%nat, 3%nat) ]} []
                (Some ("/out/vertebrae.dcm",
                       [("vertebrae_T5",
                         masked_greater0 (chord_t_of ex_chord 1 3))])))
      !! "vertebrae_T5" = Some (minv, maxv) /\
    shape (masked_greater0 (chord_t_of ex_chord 1 3)) = shape chord /\
    (forall i j k, item (masked_greater0 (chord_t_of ex_chord 1 3)) i j k =
                   (minv <=? k)%nat && (k <? maxv)%nat && item chord i j k) /\
    exists i j k,
      (i < dim0 (masked_greater0 (chord_t_of ex_chord 1 3)))%nat /\
      (j < dim1 (masked_greater0 (chord_t_of ex_chord 1 3)))%nat /\
      (k < dim2 (masked_greater0 (chord_t_of ex_chord 1 3)))%nat /\
      item (masked_greater0 (chord_t_of ex_chord 1 3)) i j k = true.
Proof.
  apply (saved_roi_is_chord_in_range (ex_cutter ["vertebrae_T5"]) ex_world
           (1 # 4) true 0
           (Outcome {[ "vertebrae_T5" := (1%nat, 3%nat) ]} []
              (Some ("/out/vertebrae.dcm",
                     [("vertebrae_T5",
                       masked_greater0 (chord_t_of ex_chord 1 3))])))
           "/out/vertebrae.dcm" "vertebrae_T5"
           [("vertebrae_T5", masked_greater0 (chord_t_of ex_chord 1 3))]).
  - vm_compute; reflexivity.
  - reflexivity.
  - left.
Defined.

Lemma omap_names_sublist {B : Type} (f : string -> option (string * B))
    (l : list string) :
  (forall x y, f x = Some y -> y.1 = x) -> sublist (omap f l).*1 l.
Proof.
  intros Hf. induction l as [|a l IH]; [constructor|]. simpl.
  destruct (f a) as [y|] eqn:Hy.
  - simpl. rewrite (Hf a y Hy). by apply sublist_skip.
  - by apply sublist_cons.
Qed.

Lemma roi_of_name (self : ChordCutter) (w : world) (T : Q)
    (chord : option (ndarray bool)) (x : string) (y : string * ndarray bool) :
  roi_of self w T chord x = Some y -> y.1 = x.
Proof.
  unfold roi_of. destruct (vertebra_range self w T x) as [e|r]; [discriminate|].
  destruct (chord_segment chord r); [|discriminate]. by intros [= <-].
Qed.

(** X5: the ROIs of the saved structure set follow the order of the vertebra
    list (their names are a sublist of it), and each of them belongs to a
    vertebra that has an entry in the returned dictionary. *)
Theorem rois_follow_list (self : ChordCutter) (w : world) (T : Q)
    (save_as_RS : bool) (verbose : Z) (out : outcome) :
  cut_chord self w T save_as_RS verbose = inr out ->
  sublist (roi_names out) (_vertebrae self) /\
  forall v, v ∈ roi_names out -> is_Some (returned out !! v).
Proof.
  intros Hcut. split.
  - destruct (cut_chord_saved self w T save_as_RS verbose out Hcut)
      as (chord & _ & Hform).
    unfold roi_names. rewrite Hform. destruct save_as_RS; [|apply sublist_nil_l].
    destruct (_vertebrae_RS_path self); simpl; [|apply sublist_nil_l].
    apply omap_names_sublist. apply roi_of_name.
  - intros v Hv. apply cut_chord_inv in Hcut as (chord & _ & Hin & Hout & _).
    destruct (decide (v ∈ _vertebrae self)) as [Hmem|Hmem].
    + destruct (Hin v Hmem) as (r & _ & Hret & Hroi). rewrite Hret.
      apply Hroi in Hv as [m Hm].
      apply chord_segment_some in Hm as (c & mn & mx & _ & -> & _). by eexists.
    + by destruct (Hout v Hmem).
Qed.

Lemma rois_follow_list_witness :
  sublist
    (roi_names (Outcome {[ "vertebrae_T5" := (1%nat, 3%nat);
                           "vertebrae_L5" := (2%nat, 2%nat) ]} []
                  (Some ("/out/vertebrae.dcm",
                         [("vertebrae_T5",
                           masked_greater0 (chord_t_of ex_chord 1 3))]))))
    (_vertebrae (ex_cutter ["vertebrae_L5"; "vertebrae_T6"; "vertebrae_T5"])) /\
  forall v,
    v ∈ roi_names (Outcome {[ "vertebrae_T5" := (1%nat, 3%nat);
                              "vertebrae_L5" := (2%nat, 2%nat) ]} []
                     (Some ("/out/vertebrae.dcm",
                            [("vertebrae_T5",
                              masked_greater0 (chord_t_of ex_chord 1 3))]))) ->
    is_Some (returned (Outcome {[ "vertebrae_T5" := (1%nat, 3%nat);
                                  "vertebrae_L5" := (2%nat, 2%nat) ]} []
                         (Some ("/out/vertebrae.dcm",
                                [("vertebrae_T5",
                                  masked_greater0 (chord_t_of ex_chord 1 3))])))
             !! v).
Proof.
  apply (rois_follow_list (ex_cutter ["vertebrae_L5"; "vertebrae_T6"; "vertebrae_T5"])
           ex_world (1 # 4) true 0).
  vm_compute; reflexivity.
Defined.



(** X7: [save_as_RS] does not change the dictionary. If the call that saves
    the structure set returns, the call that does not save returns the same
    dictionary, and saves nothing. *)
Theorem saving_keeps_dictionary (self : ChordCutter) (w : world) (T : Q)
    (verbose : Z) (out : outcome) :
  cut_chord self w T true verbose = inr out ->
  exists out', cut_chord self w T false verbose = inr out' /\
    returned out' = returned out /\ saved out' = None.
Proof.
  intros Hcut. pose proof Hcut as Hinv.
  apply cut_chord_inv in Hinv as (chord & _ & Hin & _).
  destruct (cut_chord_returns self w T false verbose None eq_refl)
    as [out' Hcut'].
  { intros v Hv. destruct (Hin v Hv) as (r & Hr & _). by exists r. }
  exists out'. split; [exact Hcut'|]. split.
  - by apply (returned_agree self self w T true false verbose verbose out out').
  - by destruct (cut_chord_saved self w T false verbose out' Hcut') as (? & _ & ->).
Qed.

Lemma saving_keeps_dictionary_witness :
  exists out',
    cut_chord (ex_cutter ["vertebrae_T5"]) ex_world (1 # 4) false 0 = inr out' /\
    returned out' =
      returned (Outcome {[ "vertebrae_T5" := (1%nat, 3%nat) ]} []
                  (Some ("/out/vertebrae.dcm",
                         [("vertebrae_T5",
                           masked_greater0 (chord_t_of ex_chord 1 3))]))) /\
    saved out' = None.
Proof.
  apply (saving_keeps_dictionary (ex_cutter ["vertebrae_T5"]) ex_world (1 # 4) 0).
  vm_compute; reflexivity.
Defined.



(** ** [load_nifti] *)

Lemma sum_upto_shift (n : nat) (f : nat -> Z) :
  sum_upto (S n) f = f 0%nat + sum_upto n (fun i => f (S i)).
Proof.
  induction n as [|n IH]; [simpl; lia|].
  change (sum_upto (S (S n)) f) with (sum_upto (S n) f + f (S n)).
  rewrite IH. simpl. lia.
Qed.

Lemma sum_upto_rev (n : nat) (f : nat -> Z) :
  sum_upto n (fun i => f (n - 1 - i)%nat) = sum_upto n f.
Proof.
  revert f. induction n as [|n IH]; intros f; [reflexivity|].
  rewrite (sum_upto_shift n f). simpl.
  rewrite <- (IH (fun i => f (S i))).
  replace (f (n - 0 - n)%nat) with (f 0%nat) by (f_equal; lia).
  rewrite Z.add_comm. f_equal. apply sum_upto_ext. intros i Hi. f_equal. lia.
Qed.

(** What [load_nifti] returns, in terms of the stored image. *)
Lemma load_nifti_inv (w : world) (path : string) (flip : bool) (a : ndarray Z) :
  load_nifti w path flip = inr a ->
  exists img, nifti_images w !! path = Some img /\
    shape a = (dim1 img, dim2 img, dim0 img) /\
    (forall i j k, item a i j k =
                   item img k (if flip then (dim1 img - 1 - i)%nat else i) j) /\
    (forall k, slice_count a k =
               sum_upto (dim1 img) (fun y => sum_upto (dim2 img) (fun x =>
                 item img k y x))) /\
    np_sum a = np_sum img.
Proof.
  unfold load_nifti, ret.
  destruct (nifti_images w !! path) as [img|]; [|discriminate].
  intros [= <-]. exists img. split; [reflexivity|].
  assert (Hslice : forall k,
            slice_count (if flip then flip0 (swapaxes01 (swapaxes02 img))
                         else swapaxes01 (swapaxes02 img)) k =
            sum_upto (dim1 img) (fun y => sum_upto (dim2 img) (fun x =>
              item img k y x))).
  { intros k. destruct flip; unfold slice_count; simpl; [|reflexivity].
    apply (sum_upto_rev (dim1 img)
             (fun y => sum_upto (dim2 img) (fun x => item img k y x))). }
  split; [by destruct flip|]. split; [by destruct flip|].
  split; [exact Hslice|].
  rewrite np_sum_slices.
  replace (dim2 (if flip then flip0 (swapaxes01 (swapaxes02 img))
                 else swapaxes01 (swapaxes02 img))) with (dim0 img)
    by (by destruct flip).
  unfold np_sum. apply sum_upto_ext. intros k _. apply Hslice.
Qed.

(** X9: [load_nifti] turns the first axis of the stored image (z) into the
    last axis of the array: the array has the shape (ny, nx, nz) of an image
    stored with the shape (nz, ny, nx), the sum of its slice [k] is the sum
    of the plane [k] of the stored image, and its total is the total of the
    stored image, flipped or not. *)
Theorem loaded_slices_are_image_planes (w : world) (path : string) (flip : bool)
    (a : ndarray Z) :
  load_nifti w path flip = inr a ->
  exists img, nifti_images w !! path = Some img /\
    shape a = (dim1 img, dim2 img, dim0 img) /\
    (forall i j k, item a i j k =
                   item img k (if flip then (dim1 img - 1 - i)%nat else i) j) /\
    (forall k, slice_count a k =
               sum_upto (dim1 img) (fun y => sum_upto (dim2 img) (fun x =>
                 item img k y x))) /\
    np_sum a = np_sum img.
Proof. apply load_nifti_inv. Qed.

Lemma loaded_slices_are_image_planes_witness :
  exists img,
    nifti_images ex_world !! "/seg/vertebrae_T4.nii.gz" = Some img /\
    shape (loaded (column [1; 3; 3; 0])) = (dim1 img, dim2 img, dim0 img) /\
    (forall i j k, item (loaded (column [1; 3; 3; 0])) i j k =
                   item img k (if true then (dim1 img - 1 - i)%nat else i) j) /\
    (forall k, slice_count (loaded (column [1; 3; 3; 0])) k =
               sum_upto (dim1 img) (fun y => sum_upto (dim2 img) (fun x =>
                 item img k y x))) /\
    np_sum (loaded (column [1; 3; 3; 0])) = np_sum img.
Proof.
  apply (loaded_slices_are_image_planes ex_world "/seg/vertebrae_T4.nii.gz" true).
  reflexivity.
Defined.

(** X10: the flip of [load_nifti] has no influence on the slice ranges: the
    flipped and the unflipped array of one file have the same slice sums, the
    same total and, for every threshold, the same range (or the same
    exception). *)
Theorem flip_keeps_ranges (w : world) (path : string) (a b : ndarray Z) :
  load_nifti w path true = inr a ->
  load_nifti w path false = inr b ->
  np_sum01 a = np_sum01 b /\ np_sum a = np_sum b /\
  forall T, range_of a T = range_of b T.
Proof.
  intros Ha Hb.
  apply load_nifti_inv in Ha as (img & Himg & Hsa & _ & Hslice_a & Hsum_a).
  apply load_nifti_inv in Hb as (img' & Himg' & Hsb & _ & Hslice_b & Hsum_b).
  assert (img' = img) by congruence. subst img'.
  assert (H01 : np_sum01 a = np_sum01 b).
  { unfold np_sum01, dim2. rewrite Hsa, Hsb. simpl.
    apply map_ext. intros k. by rewrite Hslice_a, Hslice_b. }
  assert (Hsum : np_sum a = np_sum b) by congruence.
  split; [exact H01|]. split; [exact Hsum|].
  intros T. unfold range_of, arr_th_of. by rewrite H01, Hsum.
Qed.

Lemma flip_keeps_ranges_witness :
  np_sum01 (loaded (column [3; 0; 1; 3]))
    = np_sum01 (swapaxes01 (swapaxes02 (column [3; 0; 1; 3]))) /\
  np_sum (loaded (column [3; 0; 1; 3]))
    = np_sum (swapaxes01 (swapaxes02 (column [3; 0; 1; 3]))) /\
  forall T, range_of (loaded (column [3; 0; 1; 3])) T
            = range_of (swapaxes01 (swapaxes02 (column [3; 0; 1; 3]))) T.
Proof.
  apply (flip_keeps_ranges ex_world "/seg/vertebrae_T7.nii.gz"); reflexivity.
Defined.

(** ** More on the list of vertebrae *)

Lemma add_vertebrae_frame (self : ChordCutter) (v : string) :
  add_vertebrae self v = set_vertebrae self (vertebrae (add_vertebrae self v)).
Proof.
  unfold add_vertebrae. destruct (bool_decide (v ∈ _vertebrae self)).
  - by destruct self.
  - reflexivity.
Qed.

Lemma foldl_add_frame (vs : list string) (self : ChordCutter) :
  foldl add_vertebrae self vs
  = set_vertebrae self (vertebrae (foldl add_vertebrae self vs)).
Proof.
  revert self. induction vs as [|a vs IH]; intros self; simpl.
  - by destruct self.
  - rewrite IH at 1. rewrite (add_vertebrae_frame self a) at 1. reflexivity.
Qed.

Lemma NoDup_thorax : NoDup thorax.
Proof. apply (bool_decide_unpack _). by vm_compute. Qed.

Lemma NoDup_lumbar : NoDup lumbar.
Proof. apply (bool_decide_unpack _). by vm_compute. Qed.

Lemma group_members_NoDup (vgroup : string) (members : list string) :
  group_members vgroup = Some members -> NoDup members.
Proof.
  unfold group_members.
  destruct (bool_decide (vgroup = "cervical"));
    [|destruct (bool_decide (vgroup = "thorax"));
      [|destruct (bool_decide (vgroup = "lumbar"))]];
    intros H; [| | |discriminate H].
  - replace members with cervical by congruence. apply NoDup_cervical.
  - replace members with thorax by congruence. apply NoDup_thorax.
  - replace members with lumbar by congruence. apply NoDup_lumbar.
Qed.

Lemma add_vertebrae_group_inv (self s : ChordCutter) (vgroup : string) :
  add_vertebrae_group self vgroup = inr s <->
  exists members, group_members vgroup = Some members /\
    s = foldl add_vertebrae self members.
Proof.
  unfold add_vertebrae_group, group_members, ret, raise.
  destruct (bool_decide (vgroup = "cervical"));
    [|destruct (bool_decide (vgroup = "thorax"));
      [|destruct (bool_decide (vgroup = "lumbar"))]].
  - split.
    + intros H. exists cervical. split; [reflexivity|congruence].
    + intros (members & Hm & ->). congruence.
  - split.
    + intros H. exists thorax. split; [reflexivity|congruence].
    + intros (members & Hm & ->). congruence.
  - split.
    + intros H. exists lumbar. split; [reflexivity|congruence].
    + intros (members & Hm & ->). congruence.
  - split; [discriminate|]. intros (members & Hm & _). discriminate Hm.
Qed.

(** The list after a group was added. *)
Lemma group_add_formula (self s : ChordCutter) (vgroup : string) :
  add_vertebrae_group self vgroup = inr s ->
  exists members, group_members vgroup = Some members /\
    vertebrae s =
      vertebrae self ++ filter (fun v => v ∉ vertebrae self) members /\
    s = set_vertebrae self (vertebrae s).
Proof.
  intros Hadd. apply add_vertebrae_group_inv in Hadd as (members & Hm & ->).
  exists members. split; [exact Hm|]. split.
  - apply vertebrae_foldl_add. by apply (group_members_NoDup vgroup).
  - apply foldl_add_frame.
Qed.

Lemma group_add_elem_of (self s : ChordCutter) (vgroup : string)
    (members : list string) (v : string) :
  add_vertebrae_group self vgroup = inr s ->
  group_members vgroup = Some members ->
  v ∈ vertebrae s <-> v ∈ vertebrae self \/ v ∈ members.
Proof.
  intros Hadd Hm. apply group_add_formula in Hadd as (m' & Hm' & -> & _).
  assert (m' = members) by congruence. subst m'.
  rewrite elem_of_app, list_elem_of_filter.
  destruct (decide (v ∈ vertebrae self)); tauto.
Qed.

(** X11: a successful [add_vertebrae_group] keeps the list it finds as a
    prefix, appends to it, in the order of the group, those members of the
    group that were not in the list, and changes no other attribute. *)
Theorem group_add_appends_new (self s : ChordCutter) (vgroup : string) :
  add_vertebrae_group self vgroup = inr s ->
  exists members, group_members vgroup = Some members /\
    vertebrae s =
      vertebrae self ++ filter (fun v => v ∉ vertebrae self) members /\
    s = set_vertebrae self (vertebrae s).
Proof. apply group_add_formula. Qed.

Lemma group_add_appends_new_witness :
  exists members, group_members "lumbar" = Some members /\
    vertebrae (set_vertebrae (ex_cutter [])
                 ["vertebrae_L3"; "vertebrae_T1"; "vertebrae_L1"; "vertebrae_L2";
                  "vertebrae_L4"; "vertebrae_L5"]) =
      vertebrae (ex_cutter ["vertebrae_L3"; "vertebrae_T1"]) ++
      filter (fun v => v ∉ vertebrae (ex_cutter ["vertebrae_L3"; "vertebrae_T1"]))
        members /\
    set_vertebrae (ex_cutter [])
      ["vertebrae_L3"; "vertebrae_T1"; "vertebrae_L1"; "vertebrae_L2";
       "vertebrae_L4"; "vertebrae_L5"] =
    set_vertebrae (ex_cutter ["vertebrae_L3"; "vertebrae_T1"])
      (vertebrae (set_vertebrae (ex_cutter [])
                    ["vertebrae_L3"; "vertebrae_T1"; "vertebrae_L1";
                     "vertebrae_L2"; "vertebrae_L4"; "vertebrae_L5"])).
Proof.
  apply (group_add_appends_new (ex_cutter ["vertebrae_L3"; "vertebrae_T1"])).
  vm_compute; reflexivity.
Defined.

(** X12: a list without duplicates stays without duplicates under
    [add_vertebrae] and under every successful [add_vertebrae_group]. *)
Theorem no_duplicates_is_invariant (self : ChordCutter) :
  NoDup (vertebrae self) ->
  (forall v, NoDup (vertebrae (add_vertebrae self v))) /\
  (forall vgroup s, add_vertebrae_group self vgroup = inr s ->
                    NoDup (vertebrae s)).
Proof.
  intros Hnd. split.
  - intros v. apply (NoDup_foldl_add [v] self Hnd).
  - intros vgroup s Hadd.
    apply add_vertebrae_group_inv in Hadd as (members & _ & ->).
    by apply NoDup_foldl_add.
Qed.

Lemma no_duplicates_is_invariant_witness :
  (forall v, NoDup (vertebrae (add_vertebrae (ex_cutter ["vertebrae_C3"]) v))) /\
  (forall vgroup s,
     add_vertebrae_group (ex_cutter ["vertebrae_C3"]) vgroup = inr s ->
     NoDup (vertebrae s)).
Proof.
  apply (no_duplicates_is_invariant (ex_cutter ["vertebrae_C3"])).
  apply (bool_decide_unpack _). by vm_compute.
Defined.

(** X13: adding two groups in either order gives the same vertebrae, up to
    their order in the list, when the list had no duplicates. *)
Theorem groups_commute_up_to_order (self s1 s12 : ChordCutter) (g1 g2 : string) :
  NoDup (vertebrae self) ->
  add_vertebrae_group self g1 = inr s1 ->
  add_vertebrae_group s1 g2 = inr s12 ->
  exists s2 s21,
    add_vertebrae_group self g2 = inr s2 /\
    add_vertebrae_group s2 g1 = inr s21 /\
    vertebrae s21 ≡ₚ vertebrae s12.
Proof.
  intros Hnd H1 H12.
  pose proof H1 as H1'. pose proof H12 as H12'.
  apply add_vertebrae_group_inv in H1' as (m1 & Hm1 & Hs1).
  apply add_vertebrae_group_inv in H12' as (m2 & Hm2 & Hs12).
  assert (H2 : add_vertebrae_group self g2 = inr (foldl add_vertebrae self m2))
    by (apply add_vertebrae_group_inv; by exists m2).
  assert (H21 : add_vertebrae_group (foldl add_vertebrae self m2) g1
                = inr (foldl add_vertebrae (foldl add_vertebrae self m2) m1))
    by (apply add_vertebrae_group_inv; by exists m1).
  eexists _, _. split; [exact H2|]. split; [exact H21|].
  apply NoDup_Permutation.
  - by do 2 apply NoDup_foldl_add.
  - subst s12 s1. by do 2 apply NoDup_foldl_add.
  - intros v.
    rewrite (group_add_elem_of _ _ g1 m1 v H21 Hm1).
    rewrite (group_add_elem_of _ _ g2 m2 v H2 Hm2).
    rewrite (group_add_elem_of _ _ g2 m2 v H12 Hm2).
    rewrite (group_add_elem_of _ _ g1 m1 v H1 Hm1). tauto.
Qed.

Lemma groups_commute_up_to_order_witness :
  exists s2 s21,
    add_vertebrae_group (ex_cutter ["vertebrae_L1"]) "lumbar" = inr s2 /\
    add_vertebrae_group s2 "cervical" = inr s21 /\
    vertebrae s21 ≡ₚ
      vertebrae (set_vertebrae (ex_cutter [])
                   (["vertebrae_L1"] ++ cervical ++
                    ["vertebrae_L2"; "vertebrae_L3"; "vertebrae_L4";
                     "vertebrae_L5"])).
Proof.
  apply (groups_commute_up_to_order (ex_cutter ["vertebrae_L1"])
           (set_vertebrae (ex_cutter []) (["vertebrae_L1"] ++ cervical))
           _ "cervical" "lumbar").
  - apply (bool_decide_unpack _). by vm_compute.
  - vm_compute; reflexivity.
  - vm_compute; reflexivity.
Defined.

(** X14: on an emptied list, adding two different groups leaves the members
    of the first followed by the members of the second: the groups share no
    identifier. *)
Theorem two_groups_concatenate (self s1 s2 : ChordCutter) (g1 g2 : string) :
  g1 <> g2 ->
  add_vertebrae_group (remove_all_vertebrae self) g1 = inr s1 ->
  add_vertebrae_group s1 g2 = inr s2 ->
  exists m1 m2, group_members g1 = Some m1 /\ group_members g2 = Some m2 /\
    vertebrae s2 = m1 ++ m2 /\ NoDup (vertebrae s2).
Proof.
  intros Hne H1 H2.
  apply add_vertebrae_group_inv in H1 as (m1 & Hm1 & ->).
  apply add_vertebrae_group_inv in H2 as (m2 & Hm2 & ->).
  exists m1, m2. split; [exact Hm1|]. split; [exact Hm2|].
  assert (Hlist : vertebrae (foldl add_vertebrae
                    (foldl add_vertebrae (remove_all_vertebrae self) m1) m2)
                  = m1 ++ m2).
  { unfold group_members in Hm1, Hm2.
    repeat case_bool_decide; simplify_eq; try congruence; reflexivity. }
  split; [exact Hlist|]. by do 2 apply NoDup_foldl_add; constructor.
Qed.

Lemma two_groups_concatenate_witness :
  exists m1 m2,
    group_members "cervical" = Some m1 /\ group_members "thorax" = Some m2 /\
    vertebrae (set_vertebrae (ex_cutter []) (cervical ++ thorax)) = m1 ++ m2 /\
    NoDup (vertebrae (set_vertebrae (ex_cutter []) (cervical ++ thorax))).
Proof.
  apply (two_groups_concatenate (ex_cutter ["vertebrae_L1"])
           (set_vertebrae (ex_cutter []) cervical) _ "cervical" "thorax").
  - discriminate.
  - vm_compute; reflexivity.
  - vm_compute; reflexivity.
Defined.

(** ** [segment_vertebrae] *)

Lemma forallb_elem_of {A : Type} (f : A -> bool) (l : list A) :
  forallb f l = true <-> forall x, x ∈ l -> f x = true.
Proof.
  rewrite forallb_forall. split; intros H x Hx; apply H; by apply list_elem_of_In.
Qed.

Lemma stem_idemp (f : string) : stem (stem f) = stem f.
Proof.
  induction f as [|c f IH]; [reflexivity|]. simpl.
  case_bool_decide as Hc; [reflexivity|]. simpl.
  rewrite bool_decide_eq_false_2 by exact Hc. by rewrite IH.
Qed.

Lemma stem_app_dot (v ext : string) :
  stem v = v -> stem (v +:+ "." +:+ ext) = v.
Proof.
  induction v as [|c v IH]; [reflexivity|]. simpl.
  case_bool_decide as Hc; [discriminate|].
  intros [= Hv]. by rewrite (IH Hv).
Qed.

(** X15: given the directory [out_path], [segment_vertebrae] returns [False]
    and leaves TotalSegmentator alone exactly when every requested identifier
    is the name, up to the first dot, of a file of the directory; otherwise
    it returns [True] after one call of TotalSegmentator for the whole list,
    the vertebrae already there included. *)
Theorem segment_vertebrae_decision (d : disk) (dcm_input_path out_path : string)
    (vertebrae_list files : list string) (fast : bool) :
  listings d !! out_path = Some files ->
  exists ran : bool,
    segment_vertebrae d dcm_input_path out_path vertebrae_list fast
      = inr (ran,
             if ran then Segmenting vertebrae_list else AllSegmentationsFound,
             if ran
             then Some (TotalSegmentator dcm_input_path out_path fast vertebrae_list)
             else None) /\
    (ran = false <->
     forall v, v ∈ vertebrae_list -> exists f, f ∈ files /\ stem f = v).
Proof.
  intros Hdir. unfold segment_vertebrae. rewrite Hdir.
  destruct (forallb _ vertebrae_list) eqn:Hall.
  - exists false. split; [reflexivity|]. split; [|reflexivity]. intros _ v Hv.
    apply forallb_elem_of with (x := v) in Hall; [|exact Hv].
    apply bool_decide_eq_true in Hall.
    apply list_elem_of_fmap in Hall as (f & -> & Hf). by exists f.
  - exists true. split; [reflexivity|]. split; [discriminate|].
    intros Hfound. exfalso. apply not_true_iff_false in Hall. apply Hall.
    apply forallb_elem_of. intros v Hv. apply bool_decide_eq_true.
    destruct (Hfound v Hv) as (f & Hf & <-).
    apply list_elem_of_fmap. by exists f.
Qed.

Lemma segment_vertebrae_decision_witness :
  exists ran : bool,
    segment_vertebrae ex_disk "/ct" "/seg" ["vertebrae_T5"; "vertebrae_T6"] true
      = inr (ran,
             if ran then Segmenting ["vertebrae_T5"; "vertebrae_T6"]
             else AllSegmentationsFound,
             if ran
             then Some (TotalSegmentator "/ct" "/seg" true
                          ["vertebrae_T5"; "vertebrae_T6"])
             else None) /\
    (ran = false <->
     forall v, v ∈ ["vertebrae_T5"; "vertebrae_T6"] ->
       exists f,
         f ∈ ["vertebrae_T5.nii.gz"; "vertebrae_L5.nii.gz"; "notes.txt"] /\
         stem f = v).
Proof.
  apply (segment_vertebrae_decision ex_disk "/ct" "/seg"
           ["vertebrae_T5"; "vertebrae_T6"]
           ["vertebrae_T5.nii.gz"; "vertebrae_L5.nii.gz"; "notes.txt"] true).
  vm_compute; reflexivity.
Defined.

(** X16: the files that [cut_chord] reads are the files that
    [segment_vertebrae] looks for: when the directory holds [v.nii.gz] for
    every requested identifier [v], none of which contains a dot,
    [segment_vertebrae] returns [False] without a call of TotalSegmentator. *)
Theorem segmented_files_are_found (d : disk) (dcm_input_path out_path : string)
    (vertebrae_list files : list string) (fast : bool) :
  listings d !! out_path = Some files ->
  (forall v, v ∈ vertebrae_list -> stem v = v /\ (v +:+ ".nii.gz") ∈ files) ->
  segment_vertebrae d dcm_input_path out_path vertebrae_list fast
    = inr (false, AllSegmentationsFound, None).
Proof.
  intros Hdir Hfiles. unfold segment_vertebrae. rewrite Hdir.
  replace (forallb _ vertebrae_list) with true; [reflexivity|].
  symmetry. apply forallb_elem_of. intros v Hv. apply bool_decide_eq_true.
  destruct (Hfiles v Hv) as [Hstem Hin].
  apply list_elem_of_fmap. exists (v +:+ ".nii.gz"). split; [|exact Hin].
  symmetry. apply (stem_app_dot v "nii.gz" Hstem).
Qed.

Lemma segmented_files_are_found_witness :
  segment_vertebrae ex_disk "/ct" "/seg" ["vertebrae_L5"; "vertebrae_T5"] false
    = inr (false, AllSegmentationsFound, None).
Proof.
  apply (segmented_files_are_found ex_disk "/ct" "/seg"
           ["vertebrae_L5"; "vertebrae_T5"]
           ["vertebrae_T5.nii.gz"; "vertebrae_L5.nii.gz"; "notes.txt"] false).
  - vm_compute; reflexivity.
  - intros v Hv.
    apply elem_of_cons in Hv as [->|Hv];
      [|apply elem_of_cons in Hv as [->|Hv]; [|by apply elem_of_nil in Hv]].
    + split; [reflexivity|]. right; left.
    + split; [reflexivity|]. left.
Defined.

(** X17: an identifier that contains a dot is never found, whatever the
    directory holds: [segment_vertebrae] then always calls TotalSegmentator
    and returns [True]. *)
Theorem dotted_identifier_is_never_found (d : disk)
    (dcm_input_path out_path : string) (vertebrae_list files : list string)
    (fast : bool) (v : string) :
  listings d !! out_path = Some files ->
  v ∈ vertebrae_list -> stem v <> v ->
  segment_vertebrae d dcm_input_path out_path vertebrae_list fast
    = inr (true, Segmenting vertebrae_list,
           Some (TotalSegmentator dcm_input_path out_path fast vertebrae_list)).
Proof.
  intros Hdir Hv Hdot. unfold segment_vertebrae. rewrite Hdir.
  replace (forallb _ vertebrae_list) with false; [reflexivity|].
  symmetry. apply not_true_iff_false. intros Hall.
  apply forallb_elem_of with (x := v) in Hall; [|exact Hv].
  apply bool_decide_eq_true in Hall.
  apply list_elem_of_fmap in Hall as (f & Hf & _).
  apply Hdot. rewrite Hf. apply stem_idemp.
Qed.

Lemma dotted_identifier_is_never_found_witness :
  segment_vertebrae ex_disk "/ct" "/seg" ["vertebrae_T5.nii.gz"] false
    = inr (true, Segmenting ["vertebrae_T5.nii.gz"],
           Some (TotalSegmentator "/ct" "/seg" false ["vertebrae_T5.nii.gz"])).
Proof.
  apply (dotted_identifier_is_never_found ex_disk "/ct" "/seg"
           ["vertebrae_T5.nii.gz"]
           ["vertebrae_T5.nii.gz"; "vertebrae_L5.nii.gz"; "notes.txt"] false
           "vertebrae_T5.nii.gz").
  - vm_compute; reflexivity.
  - left.
  - vm_compute. discriminate.
Defined.

(** ** Constructor and setters *)

Lemma with_RS_path_same (self : ChordCutter) :
  with_RS_path self (_RS_path self) = self.
Proof. by destruct self. Qed.

Lemma foldl_note_RS_file (dcm_path : string) (files : list string)
    (self : ChordCutter) :
  foldl (note_RS_file dcm_path) self files =
  with_RS_path self
    (match last (filter (fun f => String.prefix "RS" f = true) files) with
     | Some f => Some (join dcm_path f)
     | None => _RS_path self
     end).
Proof.
  revert self. induction files as [|a files IH]; intros self.
  - simpl. symmetry. apply with_RS_path_same.
  - simpl. rewrite IH, filter_cons. unfold note_RS_file.
    destruct (String.prefix "RS" a) eqn:Ha.
    + rewrite decide_True by reflexivity. rewrite last_cons.
      by destruct (last (filter _ files)).
    + rewrite decide_False by discriminate. reflexivity.
Qed.

(** X18: the setter of [dcm_input_path] accepts a directory; the cutter then
    has that directory and, as [RS_path], the last file of the listing whose
    name starts with RS, joined to the directory. When the directory has no
    such file the cutter keeps the [RS_path] it had. Nothing else changes. *)
Theorem dcm_setter_takes_last_RS_file (d : disk) (self : ChordCutter)
    (dcm_path : string) (files : list string) :
  listings d !! dcm_path = Some files ->
  exists s, set_dcm_input_path d self dcm_path = inr s /\
    _dcm_input_path s = dcm_path /\
    _RS_path s =
      match last (filter (fun f => String.prefix "RS" f = true) files) with
      | Some f => Some (join dcm_path f)
      | None => _RS_path self
      end /\
    s = with_RS_path (with_dcm_input_path self dcm_path) (_RS_path s).
Proof.
  intros Hdir. unfold set_dcm_input_path. rewrite Hdir.
  eexists. split; [reflexivity|]. rewrite foldl_note_RS_file.
  split; [reflexivity|]. split; reflexivity.
Qed.

Lemma dcm_setter_takes_last_RS_file_witness :
  exists s,
    set_dcm_input_path ex_disk (ex_cutter ["vertebrae_T5"]) "/ct" = inr s /\
    _dcm_input_path s = "/ct" /\
    _RS_path s =
      match last (filter (fun f => String.prefix "RS" f = true)
                    ["CT.1.dcm"; "RS.1.dcm"; "CT.2.dcm"; "RS.2.dcm"; "ct.nii.gz"])
      with
      | Some f => Some (join "/ct" f)
      | None => _RS_path (ex_cutter ["vertebrae_T5"])
      end /\
    s = with_RS_path (with_dcm_input_path (ex_cutter ["vertebrae_T5"]) "/ct")
          (_RS_path s).
Proof.
  apply (dcm_setter_takes_last_RS_file ex_disk (ex_cutter ["vertebrae_T5"]) "/ct").
  vm_compute; reflexivity.
Defined.

(** The constructor in closed form. *)
Lemma init_inv (d : disk) (dcm_input_path : string)
    (ct_nifti_path : option string) (chord_name : pyobj)
    (seg_path : option string) (self : ChordCutter) :
  init d dcm_input_path ct_nifti_path chord_name seg_path = inr self <->
  exists files, listings d !! dcm_input_path = Some files /\
    (truthy chord_name = true -> exists s, chord_name = PyStr s) /\
    self =
      mkChordCutter
        (match last (filter (fun f => String.prefix "RS" f = true) files) with
         | Some f => Some (join dcm_input_path f)
         | None => None
         end)
        None dcm_input_path
        (match chord_name with
         | PyStr s => if bool_decide (s = "") then "Moelle" else s
         | _ => "Moelle"
         end)
        ct_nifti_path seg_path [].
Proof.
  unfold init, set_dcm_input_path, bind, ret, raise.
  destruct (listings d !! dcm_input_path) as [files|]; simpl.
  2: { split; [discriminate|]. by intros (files & [=] & _). }
  rewrite foldl_note_RS_file. simpl.
  destruct chord_name as [|b|n|s]; simpl.
  - split.
    + intros [= <-]. exists files. split; [reflexivity|].
      split; [discriminate|reflexivity].
    + intros (files' & [= <-] & _ & ->). reflexivity.
  - destruct b; simpl.
    + split; [discriminate|]. intros (_ & _ & H & _).
      destruct (H eq_refl) as [? [=]].
    + split.
      * intros [= <-]. exists files. split; [reflexivity|].
        split; [discriminate|reflexivity].
      * intros (files' & [= <-] & _ & ->). reflexivity.
  - destruct (n =? 0); simpl.
    + split.
      * intros [= <-]. exists files. split; [reflexivity|].
        split; [discriminate|reflexivity].
      * intros (files' & [= <-] & _ & ->). reflexivity.
    + split; [discriminate|]. intros (_ & _ & H & _).
      destruct (H eq_refl) as [? [=]].
  - destruct (bool_decide (s = "")); simpl.
    + split.
      * intros [= <-]. exists files. split; [reflexivity|].
        split; [discriminate|reflexivity].
      * intros (files' & [= <-] & _ & ->). reflexivity.
    + split.
      * intros [= <-]. exists files. split; [reflexivity|].
        split; [by exists s|reflexivity].
      * intros (files' & [= <-] & _ & ->). reflexivity.
Qed.

(** X19: the constructor succeeds exactly when [dcm_input_path] is a
    directory and [chord_name] is false as a condition or a string. The new
    cutter has an empty vertebra list, no output directory, the last RS file
    of the directory (or none), the chord name given, [Moelle] when it is
    missing or empty, and [ct_nifti_path] and [seg_path] as they were given,
    without the tests that their setters make. *)
Theorem constructor_result (d : disk) (dcm_input_path : string)
    (ct_nifti_path : option string) (chord_name : pyobj)
    (seg_path : option string) (self : ChordCutter) :
  init d dcm_input_path ct_nifti_path chord_name seg_path = inr self <->
  exists files, listings d !! dcm_input_path = Some files /\
    (truthy chord_name = true -> exists s, chord_name = PyStr s) /\
    self =
      mkChordCutter
        (match last (filter (fun f => String.prefix "RS" f = true) files) with
         | Some f => Some (join dcm_input_path f)
         | None => None
         end)
        None dcm_input_path
        (match chord_name with
         | PyStr s => if bool_decide (s = "") then "Moelle" else s
         | _ => "Moelle"
         end)
        ct_nifti_path seg_path [].
Proof. apply init_inv. Qed.

Lemma init_vertebrae_RS_path (d : disk) (dcm_input_path : string)
    (ct_nifti_path : option string) (chord_name : pyobj)
    (seg_path : option string) (self : ChordCutter) :
  init d dcm_input_path ct_nifti_path chord_name seg_path = inr self ->
  _vertebrae_RS_path self = None.
Proof. intros Hinit. by apply init_inv in Hinit as (files & _ & _ & ->). Qed.

(** X20: a cutter as the constructor returns it, also after groups of
    vertebrae were added, cannot save a structure set:
    [cut_chord(T, save_as_RS=True)] raises the [ValueError] for the missing
    [vertebrae_RS_path] before it reads any file. *)
Theorem new_cutter_cannot_save (d : disk) (dcm_input_path : string)
    (ct_nifti_path : option string) (chord_name : pyobj)
    (seg_path : option string) (self s : ChordCutter) (vgroup : string)
    (w : world) (T : Q) (verbose : Z) :
  init d dcm_input_path ct_nifti_path chord_name seg_path = inr self ->
  add_vertebrae_group self vgroup = inr s ->
  cut_chord self w T true verbose
    = inl (ValueError "Must define vertebrae_RS_path") /\
  cut_chord s w T true verbose
    = inl (ValueError "Must define vertebrae_RS_path").
Proof.
  intros Hinit Hadd.
  apply init_vertebrae_RS_path in Hinit as Hrs.
  apply group_add_formula in Hadd as (_ & _ & _ & Hframe).
  split.
  - unfold cut_chord. by rewrite Hrs.
  - unfold cut_chord. rewrite Hframe. simpl. by rewrite Hrs.
Qed.

Lemma new_cutter_cannot_save_witness :
  cut_chord (mkChordCutter (Some "/ct/RS.2.dcm") None "/ct" "Moelle" None
               (Some "/seg") [])
    ex_world (1 # 4) true 0
    = inl (ValueError "Must define vertebrae_RS_path") /\
  cut_chord (mkChordCutter (Some "/ct/RS.2.dcm") None "/ct" "Moelle" None
               (Some "/seg") lumbar)
    ex_world (1 # 4) true 0
    = inl (ValueError "Must define vertebrae_RS_path").
Proof.
  apply (new_cutter_cannot_save ex_disk "/ct" None (PyStr "") (Some "/seg")
           (mkChordCutter (Some "/ct/RS.2.dcm") None "/ct" "Moelle" None
              (Some "/seg") [])
           (mkChordCutter (Some "/ct/RS.2.dcm") None "/ct" "Moelle" None
              (Some "/seg") lumbar)
           "lumbar").
  - vm_compute; reflexivity.
  - vm_compute; reflexivity.
Defined.

Lemma cut_chord_without_seg_path (self : ChordCutter) (w : world) (T : Q)
    (verbose : Z) (v : string) (rest : list string) :
  _seg_path self = None -> _vertebrae self = v :: rest ->
  cut_chord self w T false verbose
    = inl (TypeError "expected str, bytes or os.PathLike object, not NoneType").
Proof.
  intros Hseg Hvs. unfold cut_chord. simpl. rewrite Hvs. simpl.
  unfold cut_chord_body, seg_file. rewrite Hseg. reflexivity.
Qed.

(** X21: a cutter constructed without [seg_path] cannot cut once a group of
    vertebrae was added: [cut_chord(T)] raises the [TypeError] of
    [join(None, ...)] at the first vertebra. *)
Theorem cutter_without_seg_path_cannot_cut (d : disk) (dcm_input_path : string)
    (ct_nifti_path : option string) (chord_name : pyobj)
    (self s : ChordCutter) (vgroup : string) (w : world) (T : Q) (verbose : Z) :
  init d dcm_input_path ct_nifti_path chord_name None = inr self ->
  add_vertebrae_group self vgroup = inr s ->
  cut_chord s w T false verbose
    = inl (TypeError "expected str, bytes or os.PathLike object, not NoneType").
Proof.
  intros Hinit Hadd.
  apply init_inv in Hinit as (files & _ & _ & ->).
  apply add_vertebrae_group_inv in Hadd as (members & Hm & ->).
  assert (Hlist : exists v rest,
            _vertebrae (foldl add_vertebrae
              (mkChordCutter
                 (match last (filter (fun f => String.prefix "RS" f = true) files)
                  with
                  | Some f => Some (join dcm_input_path f)
                  | None => None
                  end)
                 None dcm_input_path
                 (match chord_name with
                  | PyStr s => if bool_decide (s = "") then "Moelle" else s
                  | _ => "Moelle"
                  end)
                 ct_nifti_path None []) members) = v :: rest).
  { pose proof (vertebrae_foldl_add members
                  (mkChordCutter
                     (match last (filter (fun f => String.prefix "RS" f = true) files)
                      with
                      | Some f => Some (join dcm_input_path f)
                      | None => None
                      end)
                     None dcm_input_path
                     (match chord_name with
                      | PyStr s => if bool_decide (s = "") then "Moelle" else s
                      | _ => "Moelle"
                      end)
                     ct_nifti_path None [])
                  (group_members_NoDup vgroup members Hm)) as Hv.
    unfold vertebrae in Hv. rewrite Hv. simpl.
    unfold group_members in Hm.
    destruct (bool_decide (vgroup = "cervical"));
      [|destruct (bool_decide (vgroup = "thorax"));
        [|destruct (bool_decide (vgroup = "lumbar"))]];
      [| | |discriminate Hm];
      [replace members with cervical by congruence
      |replace members with thorax by congruence
      |replace members with lumbar by congruence];
      by eexists _, _. }
  destruct Hlist as (v & rest & Hlist).
  apply (cut_chord_without_seg_path _ w T verbose v rest); [|exact Hlist].
  rewrite foldl_add_frame. reflexivity.
Qed.

Lemma cutter_without_seg_path_cannot_cut_witness :
  cut_chord (mkChordCutter (Some "/ct/RS.2.dcm") None "/ct" "Moelle" None None
               cervical)
    ex_world (1 # 4) false 0
    = inl (TypeError "expected str, bytes or os.PathLike object, not NoneType").
Proof.
  apply (cutter_without_seg_path_cannot_cut ex_disk "/ct" None PyNone
           (mkChordCutter (Some "/ct/RS.2.dcm") None "/ct" "Moelle" None None [])
           (mkChordCutter (Some "/ct/RS.2.dcm") None "/ct" "Moelle" None None
              cervical)
           "cervical").
  - vm_compute; reflexivity.
  - vm_compute; reflexivity.
Defined.

(** ** [ct_nifti_path], [create_niftii_from_dcm] and [get_ct_nifti] *)



Lemma path_exists_false (d : disk) (path : string) :
  path_exists d path = false -> image_files d !! path = None.
Proof.
  unfold path_exists. intros H. apply orb_false_iff in H as [_ H].
  apply bool_decide_eq_false in H.
  destruct (image_files d !! path); [|reflexivity]. exfalso. by apply H.
Qed.

(** The three ways in which [create_niftii_from_dcm] returns. *)
Lemma create_niftii_inv (d d' : disk)
    (convert : string -> list (string * ndarray Z))
    (nifti_path input_dcm_path : string) (r : pyobj) (msgs : list notice) :
  create_niftii_from_dcm d convert nifti_path input_dcm_path = inr (r, msgs, d') ->
  (path_exists d nifti_path = true /\ r = PyBool false /\ d' = d) \/
  (path_exists d nifti_path = false /\ r = PyInt 1 /\
   exists f img, all_img_of convert input_dcm_path = [(f, img)] /\
     d' = Disk (listings d) (<[nifti_path := img]> (image_files d))) \/
  (path_exists d nifti_path = false /\ r = PyInt 1 /\ d' = d /\
   (2 <= length (all_img_of convert input_dcm_path))%nat).
Proof.
  unfold create_niftii_from_dcm. fold (all_img_of convert input_dcm_path).
  destruct (path_exists d nifti_path).
  - intros [= <- <- <-]. left. by repeat split.
  - destruct (all_img_of convert input_dcm_path) as [|[f img] [|g rest]].
    + discriminate.
    + intros [= <- <- <-]. right; left.
      split; [reflexivity|]. split; [reflexivity|]. by exists f, img.
    + intros [= <- <- <-]. right; right.
      split; [reflexivity|]. split; [reflexivity|]. split; [reflexivity|].
      simpl. lia.
Qed.



(** X24: when [get_ct_nifti] returns, the array is the image stored at
    [ct_nifti_path] afterwards, with its axes (z, y, x) turned into
    (y, x, z) and not flipped; that image was there before, and the disk is
    unchanged, or nothing was at the path and it is the one image of the
    conversion. *)
Theorem get_ct_nifti_returns (d d' : disk)
    (convert : string -> list (string * ndarray Z)) (self : ChordCutter)
    (a : ndarray Z) :
  get_ct_nifti d convert self = inr (a, d') ->
  exists path img,
    _ct_nifti_path self = Some path /\
    image_files d' !! path = Some img /\
    a = swapaxes01 (swapaxes02 img) /\
    ((image_files d !! path = Some img /\ d' = d) \/
     (path_exists d path = false /\
      exists f, all_img_of convert (_dcm_input_path self) = [(f, img)])).
Proof.
  unfold get_ct_nifti.
  destruct (_ct_nifti_path self) as [path|]; [|discriminate].
  destruct (create_niftii_from_dcm d convert path (_dcm_input_path self))
    as [e|[[r msgs] d1]] eqn:Hcreate; [discriminate|].
  unfold load_nifti, ret. simpl.
  destruct (image_files d1 !! path) as [img|] eqn:Himg; [|discriminate].
  intros [= <- <-]. exists path, img.
  split; [reflexivity|]. split; [exact Himg|]. split; [reflexivity|].
  apply create_niftii_inv in Hcreate
    as [(Hex & -> & ->)|[(Hex & -> & f & img' & Hone & ->)|(Hex & -> & -> & Hlen)]].
  - left. by split.
  - right. split; [exact Hex|]. exists f.
    simpl in Himg. rewrite lookup_insert_eq in Himg. congruence.
  - apply path_exists_false in Hex. congruence.
Qed.

Lemma get_ct_nifti_returns_witness :
  exists path img,
    _ct_nifti_path (with_ct_nifti_path (ex_cutter []) (Some "/ct/new.nii.gz"))
      = Some path /\
    image_files (Disk (listings ex_disk)
                   (<["/ct/new.nii.gz" := column [5; 6; 7]]> (image_files ex_disk)))
      !! path = Some img /\
    swapaxes01 (swapaxes02 (column [5; 6; 7])) = swapaxes01 (swapaxes02 img) /\
    ((image_files ex_disk !! path = Some img /\
      Disk (listings ex_disk)
        (<["/ct/new.nii.gz" := column [5; 6; 7]]> (image_files ex_disk)) = ex_disk) \/
     (path_exists ex_disk path = false /\
      exists f,
        all_img_of ex_convert_one
          (_dcm_input_path
             (with_ct_nifti_path (ex_cutter []) (Some "/ct/new.nii.gz")))
        = [(f, img)])).
Proof.
  apply (get_ct_nifti_returns ex_disk
           (Disk (listings ex_disk)
              (<["/ct/new.nii.gz" := column [5; 6; 7]]> (image_files ex_disk)))
           ex_convert_one
           (with_ct_nifti_path (ex_cutter []) (Some "/ct/new.nii.gz"))
           (swapaxes01 (swapaxes02 (column [5; 6; 7])))).
  vm_compute; reflexivity.
Defined.

(** X25: when nothing is at [ct_nifti_path] and the conversion gives zero
    images, [get_ct_nifti] raises [FileExistsError]; when it gives two or
    more, no file is created and [get_ct_nifti] raises the error of the image
    reader for the missing file. *)
Theorem get_ct_nifti_without_single_image (d : disk)
    (convert : string -> list (string * ndarray Z)) (self : ChordCutter)
    (path : string) :
  _ct_nifti_path self = Some path ->
  path_exists d path = false ->
  length (all_img_of convert (_dcm_input_path self)) <> 1%nat ->
  get_ct_nifti d convert self =
    if decide (all_img_of convert (_dcm_input_path self) = [])
    then inl (inr (FileExistsError "No nifti image created from dicom"))
    else inl (inl (RuntimeError ("cannot read image " +:+ path))).
Proof.
  intros Hpath Hex Hlen. unfold get_ct_nifti, create_niftii_from_dcm.
  rewrite Hpath, Hex. fold (all_img_of convert (_dcm_input_path self)).
  destruct (all_img_of convert (_dcm_input_path self)) as [|[f img] [|g rest]].
  - reflexivity.
  - simpl in Hlen. congruence.
  - rewrite decide_False by discriminate.
    unfold load_nifti. simpl. by rewrite (path_exists_false d path Hex).
Qed.

Lemma get_ct_nifti_without_single_image_witness :
  get_ct_nifti ex_disk ex_convert_two
    (with_ct_nifti_path (ex_cutter []) (Some "/ct/new.nii.gz")) =
    if decide (all_img_of ex_convert_two
                 (_dcm_input_path
                    (with_ct_nifti_path (ex_cutter []) (Some "/ct/new.nii.gz")))
               = [])
    then inl (inr (FileExistsError "No nifti image created from dicom"))
    else inl (inl (RuntimeError ("cannot read image " +:+ "/ct/new.nii.gz"))).
Proof.
  apply (get_ct_nifti_without_single_image ex_disk ex_convert_two
           (with_ct_nifti_path (ex_cutter []) (Some "/ct/new.nii.gz"))
           "/ct/new.nii.gz").
  - reflexivity.
  - vm_compute; reflexivity.
  - vm_compute. discriminate.
Defined.

(** ** Which exception a call raises *)

Lemma for_each_app {A S : Type} (body : A -> S -> result S) (l1 l2 : list A)
    (s : S) :
  for_each body (l1 ++ l2) s =
  match for_each body l1 s with
  | inl e => inl e
  | inr s1 => for_each body l2 s1
  end.
Proof.
  revert s. induction l1 as [|a l1 IH]; intros s; [reflexivity|]. simpl.
  unfold bind. destruct (body a s) as [e|s1]; [reflexivity|]. apply IH.
Qed.

(** X26: the exception of a call is that of the first vertebra of the list
    that raises one: when the chord is bound, every vertebra before [v] in
    the list has a range or no voxel, and [v] raises [e] (unreadable mask, or
    voxels without a qualifying slice), then [cut_chord] raises [e], whatever
    comes after [v]. *)
Theorem first_failing_vertebra_decides (self : ChordCutter) (w : world) (T : Q)
    (save_as_RS : bool) (verbose : Z) (before after : list string) (v : string)
    (e : exception) :
  _vertebrae self = before ++ v :: after ->
  (save_as_RS = true ->
   is_Some (_vertebrae_RS_path self) /\
   exists c, load_rs w (_dcm_input_path self) (_RS_path self) (_chord_name self)
             = inr c) ->
  (forall u, u ∈ before -> exists r, vertebra_range self w T u = inr r) ->
  vertebra_range self w T v = inl e ->
  cut_chord self w T save_as_RS verbose = inl e.
Proof.
  intros Hlist Hsave Hbefore Hv.
  apply chord_for_ok_iff in Hsave as [chord Hchord].
  unfold cut_chord. fold (chord_for self w save_as_RS).
  rewrite Hchord, Hlist. simpl. rewrite for_each_app.
  pose proof (for_each_body_spec self w T chord verbose before (Locals ∅ ∅ []))
    as Hloop.
  destruct (for_each _ before _) as [e'|st1].
  { destruct Hloop as (u & Hu & He). destruct (Hbefore u Hu) as [r Hr].
    congruence. }
  simpl. unfold bind.
  pose proof (cut_chord_body_spec self w T chord verbose v st1) as Hbody.
  rewrite Hv in Hbody.
  destruct (cut_chord_body self w T chord verbose v st1) as [e'|st2];
    [by subst e'|contradiction].
Qed.

Lemma first_failing_vertebra_decides_witness :
  cut_chord (ex_cutter ["vertebrae_L5"; "vertebrae_T8"; "vertebrae_T5"]) ex_world
    (1 # 2) true 2
  = inl (RuntimeError "cannot read image /seg/vertebrae_T8.nii.gz").
Proof.
  apply (first_failing_vertebra_decides
           (ex_cutter ["vertebrae_L5"; "vertebrae_T8"; "vertebrae_T5"]) ex_world
           (1 # 2) true 2 ["vertebrae_L5"] ["vertebrae_T5"] "vertebrae_T8").
  - reflexivity.
  - intros _. split; [by eexists|]. exists ex_chord. reflexivity.
  - intros u Hu. apply list_elem_of_singleton in Hu as ->.
    exists (Some (2%nat, 2%nat)). vm_compute; reflexivity.
  - vm_compute; reflexivity.
Defined.
